(** * HFTBTree: an arena-allocated B-tree (btree.cpp)

    A shallow embedding of the class template [HFTBTree<Key, Value, ORDER>]
    and the properties of its [findPos], [search], [splitChild], [insert]
    and [insertNonFull] member functions.

    Nodes live in one arena and are mutated in place through pointers, so
    the tree is modelled as a store of [Node] records keyed by their byte
    offset in the arena; every member function is a computation in a small
    state-and-fault monad over that store. *)

From stdpp Require Import gmap list.

Local Open Scope Z_scope.
Local Open Scope nat_scope.

(** ** Data model *)

(** [Key] is instantiated with a signed integer type; keys are only ever
    compared, never computed with. *)
Abbreviation Key := Z (only parsing).

(** [Node*]: [None] is [nullptr], [Some a] is [arena + a]. *)
Abbreviation ptr := (option N) (only parsing).

(** [Value*] as returned by [search]: [None] is [nullptr], [Some (a, i)]
    is [&node->vals[i]] for the node at [arena + a]. *)
Abbreviation vptr := (option (N * nat)) (only parsing).

(** [uint16_t] conversion, as applied to every value stored in [keyCount]. *)
Definition u16 (n : nat) : nat := Z.to_nat (Z.of_nat n mod 65536).

(** Reading and writing a fixed-size array; an index outside the array is
    a fault. *)
Definition rd {A} (l : list A) (i : nat) : option A := l !! i.

Definition wr {A} (l : list A) (i : nat) (x : A) : option (list A) :=
  if decide (i < length l) then Some (<[i:=x]> l) else None.

(** [memcpy(dst, src + off, cnt * sizeof(A))]. *)
Definition memcpy {A} (dst src : list A) (off cnt : nat) : option (list A) :=
  if decide (off + cnt ≤ length src ∧ cnt ≤ length dst)
  then Some (take cnt (drop off src) ++ drop cnt dst)
  else None.

Section HFTBTree.

Context {Value : Type}.

(** Template parameter [ORDER] and [sizeof(Node)]. *)
Variable ORDER : nat.
Variable sizeofNode : N.

(** The constructor of [Node] leaves [keys] and [vals] uninitialised;
    [indetK] and [indetV] stand for the indeterminate contents. *)
Variable indetK : Key.
Variable indetV : Value.

Definition MAX_KEYS : nat := ORDER * 2.
Definition MAX_CHILD : nat := MAX_KEYS + 1.
Definition ARENA_SIZE : N := 2 ^ 26.

Record Node : Type := mkNode {
  leaf : bool;
  keyCount : nat;
  keys : list Key;
  vals : list Value;
  child : list ptr
}.

Definition full (nd : Node) : bool := bool_decide (keyCount nd = MAX_KEYS).

(** [Node(bool lf)]: [leaf(lf), keyCount(0)], [child] zeroed by [memset]. *)
Definition Node_new (lf : bool) : Node :=
  mkNode lf 0 (replicate MAX_KEYS indetK) (replicate MAX_KEYS indetV)
         (replicate MAX_CHILD None).

Definition set_keyCount (n : nat) (nd : Node) : Node :=
  mkNode (leaf nd) (u16 n) (keys nd) (vals nd) (child nd).
Definition set_keys (ks : list Key) (nd : Node) : Node :=
  mkNode (leaf nd) (keyCount nd) ks (vals nd) (child nd).
Definition set_vals (vs : list Value) (nd : Node) : Node :=
  mkNode (leaf nd) (keyCount nd) (keys nd) vs (child nd).
Definition set_child (cs : list ptr) (nd : Node) : Node :=
  mkNode (leaf nd) (keyCount nd) (keys nd) (vals nd) cs.

(** The object state: [root], [arenaOffset], and the contents of the
    arena ([arena !! a] is the node constructed at [arena + a]). The
    offset is a [size_t]; it is kept in [N], and the store has no upper
    end: the class never compares an offset with [ARENA_SIZE], so the
    model does not either. The arena of the class is one block of
    [ARENA_SIZE] bytes: model and code agree on every run whose nodes lie
    inside it, and constructing a node beyond it is undefined behaviour in
    C++, where the model only records what the statements say. *)
Record HFTBTree : Type := mkTree {
  root : ptr;
  arenaOffset : N;
  arena : gmap N Node
}.

(** ** The monad of member functions

    A computation takes the object state and either faults ([None]: a null
    or wild pointer dereference, an array index out of range, or the
    recursion budget of the model used up) or returns a result and the new
    state. *)
Definition M (A : Type) : Type := HFTBTree → option (A * HFTBTree).

Definition ret {A} (x : A) : M A := λ st, Some (x, st).
Definition bind {A B} (m : M A) (f : A → M B) : M B :=
  λ st, match m st with Some (x, st') => f x st' | None => None end.
Definition fault {A} : M A := λ _, None.
Definition lift {A} (o : option A) : M A :=
  λ st, match o with Some x => Some (x, st) | None => None end.

Notation "x ⇐ m ; k" := (bind m (λ x, k))
  (at level 20, m at level 100, k at level 200, right associativity,
   format "'[' x  ⇐  m ;  '/' k ']'").
Notation "m ;;; k" := (bind m (λ _, k))
  (at level 100, k at level 200, right associativity).

(** [*p] *)
Definition load (p : ptr) : M Node :=
  λ st, match p with
        | Some a => match arena st !! a with
                    | Some nd => Some (nd, st)
                    | None => None
                    end
        | None => None
        end.

(** [*p = nd] for a live node [*p]. *)
Definition store (p : ptr) (nd : Node) : M unit :=
  λ st, match p with
        | Some a => match arena st !! a with
                    | Some _ => Some (tt, mkTree (root st) (arenaOffset st)
                                                 (<[a:=nd]> (arena st)))
                    | None => None
                    end
        | None => None
        end.

(** One assignment through [p]: the node is read, changed and written
    back. *)
Definition update (p : ptr) (f : Node → option Node) : M unit :=
  nd ⇐ load p; nd' ⇐ lift (f nd); store p nd'.

Definition get_root : M ptr := λ st, Some (root st, st).
Definition set_root (p : ptr) : M unit :=
  λ st, Some (tt, mkTree p (arenaOffset st) (arena st)).

(** ** allocNode *)

(** [ptr = arena + arenaOffset; arenaOffset += sizeof(Node);
     return new(ptr) Node(leaf);] -- the offset is compared with nothing,
    so the node is constructed at [arena + arenaOffset] also when
    [arenaOffset + sizeof(Node) > ARENA_SIZE], outside the block. *)
Definition allocNode (lf : bool) : M ptr :=
  λ st, let a := arenaOffset st in
        Some (Some a, mkTree (root st) (a + sizeofNode)
                             (<[a:=Node_new lf]> (arena st))).

(** The constructor: [arenaOffset = 0; root = allocNode(true);] *)
Definition HFTBTree_new : option HFTBTree :=
  snd <$> (r ⇐ allocNode true; set_root r) (mkTree None 0 ∅).

(** ** findPos *)

(** The second loop, [for (; i < n; i++) if (keys[i] >= k) return i;],
    followed by [return n]. [fuel] bounds the iterations left. *)
Fixpoint findPos_tail (fuel : nat) (ks : list Key) (k : Key) (i n : nat)
  : option nat :=
  if decide (i < n) then
    match fuel with
    | 0 => None
    | S f =>
        x ← rd ks i;
        if decide (k ≤ x)%Z then Some i else findPos_tail f ks k (S i) n
    end
  else Some n.

(** The first loop, four keys per iteration. *)
Fixpoint findPos_unrolled (fuel : nat) (ks : list Key) (k : Key) (i n : nat)
  : option nat :=
  if decide (i + 4 ≤ n) then
    match fuel with
    | 0 => None
    | S f =>
        x0 ← rd ks i;
        if decide (k ≤ x0)%Z then Some i else
        x1 ← rd ks (i + 1);
        if decide (k ≤ x1)%Z then Some (i + 1) else
        x2 ← rd ks (i + 2);
        if decide (k ≤ x2)%Z then Some (i + 2) else
        x3 ← rd ks (i + 3);
        if decide (k ≤ x3)%Z then Some (i + 3) else
        findPos_unrolled f ks k (i + 4) n
    end
  else findPos_tail fuel ks k i n.

Definition findPos (node : Node) (k : Key) : option nat :=
  findPos_unrolled (keyCount node) (keys node) k 0 (keyCount node).

(** ** search *)

(** The [while (true)] loop of [search]; one unit of [fuel] per node
    visited. *)
Fixpoint search_loop (fuel : nat) (cur : ptr) (k : Key) : M vptr :=
  match fuel with
  | 0 => fault
  | S f =>
      nd ⇐ load cur;
      pos ⇐ lift (findPos nd k);
      hit ⇐ lift (if decide (pos < keyCount nd)
                  then x ← rd (keys nd) pos; Some (bool_decide (x = k))
                  else Some false);
      if (hit : bool) then ret (a ← cur; Some (a, pos))
      else if leaf nd then ret None
      else c ⇐ lift (rd (child nd) pos); search_loop f c k
  end.

Definition search (fuel : nat) (k : Key) : M vptr :=
  r ⇐ get_root; search_loop fuel r k.

(** [*vp] for the result of [search]. *)
Definition deref (vp : vptr) (st : HFTBTree) : option Value :=
  '(a, i) ← vp; nd ← arena st !! a; rd (vals nd) i.

(** ** splitChild *)

(** [for (int i = parent->keyCount; i > idx; --i)] with its three
    assignments; [cnt] is [i - idx]. *)
Fixpoint shift_parent (cnt idx : nat) (nd : Node) : option Node :=
  match cnt with
  | 0 => Some nd
  | S c =>
      let i := idx + S c in
      ci ← rd (child nd) i;
      cs ← wr (child nd) (i + 1) ci;
      ki ← rd (keys nd) (i - 1);
      ks ← wr (keys nd) i ki;
      vi ← rd (vals nd) (i - 1);
      vs ← wr (vals nd) i vi;
      shift_parent c idx (mkNode (leaf nd) (keyCount nd) ks vs cs)
  end.

Definition mid : nat := MAX_KEYS / 2.

Definition splitChild (parent : ptr) (idx : nat) : M unit :=
  p ⇐ load parent;
  fullNode ⇐ lift (rd (child p) idx);
  f ⇐ load fullNode;
  newNode ⇐ allocNode (leaf f);
  update newNode (λ n, Some (set_keyCount (MAX_KEYS - mid - 1) n));;;
  f ⇐ load fullNode;
  update newNode (λ n,
    ks ← memcpy (keys n) (keys f) (mid + 1) (keyCount n);
    Some (set_keys ks n));;;
  f ⇐ load fullNode;
  update newNode (λ n,
    vs ← memcpy (vals n) (vals f) (mid + 1) (keyCount n);
    Some (set_vals vs n));;;
  f ⇐ load fullNode;
  (if leaf f then ret tt
   else update newNode (λ n,
     cs ← memcpy (child n) (child f) (mid + 1) (keyCount n + 1);
     Some (set_child cs n)));;;
  update fullNode (λ f, Some (set_keyCount mid f));;;
  update parent (λ p, shift_parent (keyCount p - idx) idx p);;;
  update parent (λ p, cs ← wr (child p) (idx + 1) newNode;
                      Some (set_child cs p));;;
  f ⇐ load fullNode;
  update parent (λ p, x ← rd (keys f) mid; ks ← wr (keys p) idx x;
                      Some (set_keys ks p));;;
  f ⇐ load fullNode;
  update parent (λ p, y ← rd (vals f) mid; vs ← wr (vals p) idx y;
                      Some (set_vals vs p));;;
  update parent (λ p, Some (set_keyCount (keyCount p + 1) p)).

(** ** insertNonFull and insert *)

(** The leaf loop, [while (i >= 0 && node->keys[i] > k)], with [j = i + 1]
    so that the index stays a natural number; returns the final [j]. *)
Fixpoint shift_leaf (j : nat) (k : Key) (ks : list Key) (vs : list Value)
  : option (nat * list Key * list Value) :=
  match j with
  | 0 => Some (0, ks, vs)
  | S i =>
      x ← rd ks i;
      if decide (k < x)%Z then
        ks' ← wr ks (S i) x;
        y ← rd vs i;
        vs' ← wr vs (S i) y;
        shift_leaf i k ks' vs'
      else Some (S i, ks, vs)
  end.

Definition insert_leaf (k : Key) (v : Value) (nd : Node) : option Node :=
  '(j, ks, vs) ← shift_leaf (keyCount nd) k (keys nd) (vals nd);
  ks' ← wr ks j k;
  vs' ← wr vs j v;
  Some (mkNode (leaf nd) (u16 (keyCount nd + 1)) ks' vs' (child nd)).

(** One unit of [fuel] per level of recursion. *)
Fixpoint insertNonFull (fuel : nat) (node : ptr) (k : Key) (v : Value)
  : M unit :=
  match fuel with
  | 0 => fault
  | S f =>
      nd ⇐ load node;
      if leaf nd then update node (insert_leaf k v)
      else
        pos ⇐ lift (findPos nd k);
        c ⇐ lift (rd (child nd) pos);
        cn ⇐ load c;
        pos' ⇐ (if full cn then
                  splitChild node pos;;;
                  nd' ⇐ load node;
                  x ⇐ lift (rd (keys nd') pos);
                  ret (if decide (x < k)%Z then pos + 1 else pos)
                else ret pos);
        nd'' ⇐ load node;
        c' ⇐ lift (rd (child nd'') pos');
        insertNonFull f c' k v
  end.

Definition insert (fuel : nat) (k : Key) (v : Value) : M unit :=
  r ⇐ get_root;
  rn ⇐ load r;
  if full rn then
    s ⇐ allocNode false;
    set_root s;;;
    update s (λ n, cs ← wr (child n) 0 r; Some (set_child cs n));;;
    splitChild s 0;;;
    insertNonFull fuel s k v
  else insertNonFull fuel r k v.

(** A run of [insert] calls on a fresh tree, in list order. *)
Fixpoint insert_all (fuel : nat) (kvs : list (Key * Value)) : M unit :=
  match kvs with
  | [] => ret tt
  | (k, v) :: kvs' => insert fuel k v;;; insert_all fuel kvs'
  end.

Definition run (fuel : nat) (kvs : list (Key * Value)) : option HFTBTree :=
  st ← HFTBTree_new; snd <$> insert_all fuel kvs st.

(** * Specification vocabulary *)

(** ** What the loops compute *)

(** [p] is the lower bound of [k] among the first [n] slots of [ks]: the
    slots before [p] hold keys [< k], and slot [p], if it is one of the
    [n], holds a key [≥ k]. *)
Definition lower_bound (ks : list Key) (n : nat) (k : Key) (p : nat) : Prop :=
  p ≤ n ∧
  (∀ j x, j < p → ks !! j = Some x → (x < k)%Z) ∧
  (∀ x, p < n → ks !! p = Some x → (k ≤ x)%Z).

(** [l'] is [l] with [x] written at [j] after the slots [j .. n-1] have
    moved one place to the right. *)
Definition opened {A} (l : list A) (j n : nat) (x : A) (l' : list A) : Prop :=
  length l' = length l ∧
  ∀ p, l' !! p = if decide (p = j) then Some x
                 else if decide (j < p ≤ n) then l !! (p - 1) else l !! p.

(** [l'] is [l] after the slots [j .. n-1] have moved one place to the
    right; slot [j] keeps its old contents. *)
Definition shifted {A} (l : list A) (j n : nat) (l' : list A) : Prop :=
  length l' = length l ∧
  ∀ p, l' !! p = if decide (j < p ≤ n) then l !! (p - 1) else l !! p.

(** The node written for the new sibling of a full node [f]. *)
Definition sibling (f : Node) : Node :=
  mkNode (leaf f) (MAX_KEYS - mid - 1)
    (take (MAX_KEYS - mid - 1) (drop (mid + 1) (keys f))
       ++ drop (MAX_KEYS - mid - 1) (replicate MAX_KEYS indetK))
    (take (MAX_KEYS - mid - 1) (drop (mid + 1) (vals f))
       ++ drop (MAX_KEYS - mid - 1) (replicate MAX_KEYS indetV))
    (if leaf f then replicate MAX_CHILD None
     else take (MAX_KEYS - mid - 1 + 1) (drop (mid + 1) (child f))
            ++ drop (MAX_KEYS - mid - 1 + 1) (replicate MAX_CHILD None)).

(** ** The tree a store represents

    A [tree] records, for a node and everything below it, the address of
    each node, its leaf flag, its occupied key/value slots and its
    subtrees. [repr h t] says that the store [h] holds exactly this tree;
    [wf d t] collects the B-tree invariants of a tree of depth [d]. *)

#[warnings="-register-all"]
Inductive tree : Type :=
  Tr (a : N) (lf : bool) (es : list (Key * Value)) (ts : list tree).

(** The address of the root of [t]; all addresses; all entries; all keys. *)
Definition taddr (t : tree) : N := match t with Tr a _ _ _ => a end.

Fixpoint addrs (t : tree) : list N :=
  match t with Tr a _ _ ts => a :: (ts ≫= addrs) end.

Fixpoint entries (t : tree) : list (Key * Value) :=
  match t with Tr _ _ es ts => es ++ (ts ≫= entries) end.

Definition tkeys (t : tree) : list Key := (entries t).*1.

(** The keys [ks] are in non-decreasing order. *)
Definition nondecreasing (ks : list Key) : Prop :=
  ∀ i j x y, i ≤ j → ks !! i = Some x → ks !! j = Some y → (x ≤ y)%Z.

(** The store [h] holds the tree [t]: each node of [t] is a live node
    with full-size arrays whose occupied slots are the entries of [t] and
    whose first child pointers lead to the subtrees of [t]. *)
#[warnings="-register-all"]
Inductive repr (h : gmap N Node) : tree → Prop :=
| repr_node a lf es ts nd :
    h !! a = Some nd →
    leaf nd = lf →
    keyCount nd = length es →
    length (keys nd) = MAX_KEYS →
    length (vals nd) = MAX_KEYS →
    length (child nd) = MAX_CHILD →
    take (length es) (keys nd) = es.*1 →
    take (length es) (vals nd) = es.*2 →
    take (length ts) (child nd) = (λ t, Some (taddr t)) <$> ts →
    Forall (repr h) ts →
    repr h (Tr a lf es ts).

(** A B-tree of depth [d]: at most [MAX_KEYS] entries per node, one more
    subtree than entries in an internal node, all leaves at depth [d],
    keys in order within a node and around each separator. *)
#[warnings="-register-all"]
Inductive wf : nat → tree → Prop :=
| wf_leaf a es :
    length es ≤ MAX_KEYS →
    nondecreasing es.*1 →
    wf 1 (Tr a true es [])
| wf_internal d a es ts :
    length es ≤ MAX_KEYS →
    length ts = S (length es) →
    nondecreasing es.*1 →
    Forall (wf d) ts →
    (∀ i t x, ts !! i = Some t → es.*1 !! i = Some x →
              Forall (λ y, (y ≤ x)%Z) (tkeys t)) →
    (∀ i t x, ts !! S i = Some t → es.*1 !! i = Some x →
              Forall (λ y, (x ≤ y)%Z) (tkeys t)) →
    wf (S d) (Tr a false es ts).

(** [ins j x l] is [l] with [x] inserted before position [j]. *)
Definition ins {A} (j : nat) (x : A) (l : list A) : list A :=
  take j l ++ x :: drop j l.

(** ** Splitting a full node, on trees *)

(** The entries and the subtrees of the root of [t]. *)
Definition tents (t : tree) : list (Key * Value) :=
  match t with Tr _ _ es _ => es end.

Definition tkids (t : tree) : list tree :=
  match t with Tr _ _ _ ts => ts end.

(** The two halves of a full node after [splitChild]: the old node keeps
    the entries before [mid], the sibling at address [o] takes those after
    [mid]. *)
Definition split_left (t : tree) : tree :=
  match t with
  | Tr c lf es ts => Tr c lf (take mid es) (take (mid + 1) ts)
  end.

Definition split_right (o : N) (t : tree) : tree :=
  match t with
  | Tr _ lf es ts => Tr o lf (drop (mid + 1) es) (drop (mid + 1) ts)
  end.

(** ** Pre- and postcondition of insertNonFull *)

(** What one call of [insertNonFull] on the subtree [t] achieves: the
    subtree is now [t'], rooted at the same node, still well formed, made
    of old nodes of [t] and freshly allocated ones, holding one more
    entry; nothing outside [t] that was allocated before has changed. *)
Definition ins_post (st st' : HFTBTree) (t t' : tree) (d : nat)
    (k : Key) (v : Value) : Prop :=
  root st' = root st ∧
  (arenaOffset st ≤ arenaOffset st')%N ∧
  taddr t' = taddr t ∧
  repr (arena st') t' ∧ wf d t' ∧ NoDup (addrs t') ∧
  (∀ x, x ∈ addrs t' →
        x ∈ addrs t ∨ (arenaOffset st ≤ x < arenaOffset st')%N) ∧
  (∀ e, e ∈ entries t' ↔ e = (k, v) ∨ e ∈ entries t) ∧
  (∀ x, x ∉ addrs t → (x < arenaOffset st)%N →
        arena st' !! x = arena st !! x) ∧
  (∀ t0, tkids t !! 0 = Some t0 →
         ∃ t0', tkids t' !! 0 = Some t0' ∧ taddr t0' = taddr t0).

(** What [insertNonFull] needs of the subtree [t] it is called on. *)
Definition ins_pre (st : HFTBTree) (t : tree) (d : nat) : Prop :=
  repr (arena st) t ∧ wf d t ∧ NoDup (addrs t) ∧
  (∀ x, x ∈ addrs t → (x < arenaOffset st)%N).

(** ** The invariant between calls *)

(** The invariant of the object between calls: [root] points to the root
    of a well-formed, separated tree of depth [d] held in the arena below
    [arenaOffset]. *)
Definition Inv (st : HFTBTree) (t : tree) (d : nat) : Prop :=
  root st = Some (taddr t) ∧ ins_pre st t d.

(** ** Nodes reachable from the root *)

(** [reach h a n b]: node [b] is [n] child links below node [a], following
    the links [child[0 .. keyCount]] of internal nodes. *)
Inductive reach (h : gmap N Node) : N → nat → N → Prop :=
| reach_here a : reach h a 0 a
| reach_child a nd i c n b :
    h !! a = Some nd → leaf nd = false → i ≤ keyCount nd →
    child nd !! i = Some (Some c) → reach h c n b →
    reach h a (S n) b.

(** The keys a node holds: its first [keyCount] key slots. *)
Definition node_keys (nd : Node) : list Key := take (keyCount nd) (keys nd).

(** [subtree n t s]: [s] is a subtree of [t], [n] levels down. *)
Inductive subtree : nat → tree → tree → Prop :=
| subtree_here t : subtree 0 t t
| subtree_child a lf es ts i t n s :
    ts !! i = Some t → subtree n t s → subtree (S n) (Tr a lf es ts) s.


(** ** The ordering invariant on the store *)



(** ** How insertNonFull reshapes a tree *)

(** [tins k v o t o' t']: one call of [insertNonFull] on the subtree [t],
    with the arena offset at [o], leaves the subtree [t'] and the offset
    [o']. In a leaf the entry goes into the entry list; in an internal
    node the call continues in a child, after splitting that child when it
    is full (the sibling is the node allocated at [o]). *)
Inductive tins (k : Key) (v : Value) : N → tree → N → tree → Prop :=
| tins_leaf o a es j :
    j ≤ length es →
    tins k v o (Tr a true es []) o (Tr a true (ins j (k, v) es) [])
| tins_child o o' a es ts q tq tq' :
    ts !! q = Some tq →
    tins k v o tq o' tq' →
    tins k v o (Tr a false es ts) o' (Tr a false es (<[q:=tq']> ts))
| tins_split o o' a es ts pos tp m q tq tq' :
    ts !! pos = Some tp →
    length (tents tp) = MAX_KEYS →
    tents tp !! mid = Some m →
    ins (pos + 1) (split_right o tp) (<[pos:=split_left tp]> ts) !! q
    = Some tq →
    tins k v (o + sizeofNode)%N tq o' tq' →
    tins k v o (Tr a false es ts) o'
      (Tr a false (ins pos m es)
          (<[q:=tq']> (ins (pos + 1) (split_right o tp)
                           (<[pos:=split_left tp]> ts)))).

(** The offsets of [n] nodes allocated one after the other from [o]. *)
Definition fresh (o : N) (n : nat) : list N :=
  (λ i, (o + sizeofNode * N.of_nat i)%N) <$> seq 0 n.

(** Minimum occupancy: the node and everything below it hold at least
    [ORDER - 1] entries each. *)
#[warnings="-register-all"]
Inductive occ : tree → Prop :=
| occ_node a lf es ts :
    ORDER - 1 ≤ length es → Forall occ ts → occ (Tr a lf es ts).

Definition tleaf (t : tree) : bool := match t with Tr _ lf _ _ => lf end.

(** ** In-order traversal *)

(** The entries [es] of a node, each preceded by the traversal of the
    subtree to its left, and followed at the end by the last subtree. *)
Fixpoint interleave {A} (kids : list (list A)) (es : list A) : list A :=
  match kids, es with
  | kd :: kids', e :: es' => kd ++ e :: interleave kids' es'
  | kd :: _, [] => kd
  | [], _ => es
  end.


(** The traversal on the store, from the node [p] down; [fuel] bounds the
    depth. *)
Fixpoint inorder (fuel : nat) (h : gmap N Node) (p : ptr)
  : option (list (Key * Value)) :=
  match fuel with
  | 0 => None
  | S f =>
      a ← p; nd ← h !! a;
      let es := zip (take (keyCount nd) (keys nd))
                    (take (keyCount nd) (vals nd)) in
      if leaf nd then Some es
      else kids ← mapM (inorder f h) (take (keyCount nd + 1) (child nd));
           Some (interleave kids es)
  end.

(** ** The tree after a run of inserts *)

(** [Tight o t kvs]: the tree [t] holds the pairs [kvs], its nodes other
    than the root are at least minimally occupied, an internal root holds
    a key, and the nodes of [t] are exactly the nodes allocated below the
    arena offset [o]. *)
Definition Tight (o : N) (t : tree) (kvs : list (Key * Value)) : Prop :=
  entries t ≡ₚ kvs ∧
  Forall occ (tkids t) ∧
  (tleaf t = false → 1 ≤ length (tents t)) ∧
  addrs t ≡ₚ fresh 0 (length (addrs t)) ∧
  o = (sizeofNode * N.of_nat (length (addrs t)))%N.

(** ** A tree that never splits *)

(** The tree is the root leaf alone, nothing else has been allocated, and
    the leaf counts [c] keys. *)
Definition lone_leaf (st : HFTBTree) (c : nat) : Prop :=
  root st = Some 0%N ∧ arenaOffset st = sizeofNode ∧
  ∃ nd, arena st !! 0%N = Some nd ∧ leaf nd = true ∧ keyCount nd = c ∧
        length (keys nd) = MAX_KEYS ∧ length (vals nd) = MAX_KEYS.

(** * Verification *)

(** ** The monad, the arrays, and findPos as a lower-bound scan *)

Lemma wr_Some {A} (l : list A) i x :
  i < length l → wr l i x = Some (<[i:=x]> l).
Proof. intros. unfold wr. by rewrite decide_True. Qed.

Lemma rd_lt {A} (l : list A) i : i < length l → ∃ x, rd l i = Some x.
Proof. intros H. destruct (lookup_lt_is_Some_2 l i H) as [x Hx]. by exists x. Qed.

Lemma bind_Some {A B} (m : M A) (f : A → M B) st x st1 :
  m st = Some (x, st1) → bind m f st = f x st1.
Proof. unfold bind. by intros ->. Qed.

Lemma lift_Some {A} (o : option A) x st :
  o = Some x → lift o st = Some (x, st).
Proof. by intros ->. Qed.

Lemma load_Some a nd st :
  arena st !! a = Some nd → load (Some a) st = Some (nd, st).
Proof. unfold load. by intros ->. Qed.

Lemma update_Some a f nd nd' st :
  arena st !! a = Some nd → f nd = Some nd' →
  update (Some a) f st
  = Some (tt, mkTree (root st) (arenaOffset st) (<[a:=nd']> (arena st))).
Proof.
  intros Ha Hf. unfold update, bind, load, lift, store.
  rewrite Ha, Hf. simpl. by rewrite Ha.
Qed.

Lemma findPos_tail_spec fuel ks k i n :
  n ≤ length ks → i ≤ n → n - i ≤ fuel →
  (∀ j x, j < i → ks !! j = Some x → (x < k)%Z) →
  ∃ p, findPos_tail fuel ks k i n = Some p ∧ lower_bound ks n k p.
Proof.
  revert i. induction fuel as [|f IH]; intros i Hn Hi Hf Hlt; simpl.
  - rewrite decide_False by lia. exists n. split; [done|].
    assert (i = n) as -> by lia. split_and!; [done|done|lia].
  - destruct (decide (i < n)) as [Hin|Hin].
    + destruct (rd_lt ks i) as [x Hx]; [lia|]. rewrite Hx. simpl.
      destruct (decide (k ≤ x)%Z) as [Hk|Hk].
      * exists i. split; [done|]. split_and!; [lia|done|].
        intros y _ Hy. unfold rd in Hx. congruence.
      * apply IH; [done|lia|lia|].
        intros j y Hj Hy. destruct (decide (j = i)) as [->|].
        -- unfold rd in Hx. assert (y = x) by congruence. lia.
        -- apply (Hlt j); [lia|done].
    + exists n. split; [done|].
      assert (i = n) as -> by lia. split_and!; [done|done|lia].
Qed.

Lemma findPos_unrolled_spec fuel ks k i n :
  n ≤ length ks → i ≤ n → n - i ≤ fuel →
  (∀ j x, j < i → ks !! j = Some x → (x < k)%Z) →
  ∃ p, findPos_unrolled fuel ks k i n = Some p ∧ lower_bound ks n k p.
Proof.
  revert i. induction fuel as [|f IH]; intros i Hn Hi Hf Hlt.
  - cbn [findPos_unrolled]. rewrite decide_False by lia.
    by apply findPos_tail_spec.
  - cbn [findPos_unrolled]. destruct (decide (i + 4 ≤ n)) as [H4|H4];
      [|by apply findPos_tail_spec].
    destruct (rd_lt ks i) as [x0 H0]; [lia|].
    destruct (rd_lt ks (i + 1)) as [x1 H1]; [lia|].
    destruct (rd_lt ks (i + 2)) as [x2 H2]; [lia|].
    destruct (rd_lt ks (i + 3)) as [x3 H3]; [lia|].
    rewrite H0; simpl. unfold rd in *.
    destruct (decide (k ≤ x0)%Z).
    { exists i. split; [done|]. split_and!; [lia|done|]. intros; congruence. }
    rewrite H1; simpl. destruct (decide (k ≤ x1)%Z).
    { exists (i + 1). split; [done|]. split_and!; [lia| |intros; congruence].
      intros j y Hj Hy. destruct (decide (j = i)) as [->|]; [|apply (Hlt j); [lia|done]].
      assert (y = x0) by congruence. lia. }
    rewrite H2; simpl. destruct (decide (k ≤ x2)%Z).
    { exists (i + 2). split; [done|]. split_and!; [lia| |intros; congruence].
      intros j y Hj Hy.
      destruct (decide (j = i)) as [->|]; [assert (y = x0) by congruence; lia|].
      destruct (decide (j = i + 1)) as [->|]; [assert (y = x1) by congruence; lia|].
      apply (Hlt j); [lia|done]. }
    rewrite H3; simpl. destruct (decide (k ≤ x3)%Z).
    { exists (i + 3). split; [done|]. split_and!; [lia| |intros; congruence].
      intros j y Hj Hy.
      destruct (decide (j = i)) as [->|]; [assert (y = x0) by congruence; lia|].
      destruct (decide (j = i + 1)) as [->|]; [assert (y = x1) by congruence; lia|].
      destruct (decide (j = i + 2)) as [->|]; [assert (y = x2) by congruence; lia|].
      apply (Hlt j); [lia|done]. }
    apply IH; [done|lia|lia|].
    intros j y Hj Hy.
    destruct (decide (j = i)) as [->|]; [assert (y = x0) by congruence; lia|].
    destruct (decide (j = i + 1)) as [->|]; [assert (y = x1) by congruence; lia|].
    destruct (decide (j = i + 2)) as [->|]; [assert (y = x2) by congruence; lia|].
    destruct (decide (j = i + 3)) as [->|]; [assert (y = x3) by congruence; lia|].
    apply (Hlt j); [lia|done].
Qed.

Lemma findPos_spec nd k :
  keyCount nd ≤ length (keys nd) →
  ∃ p, findPos nd k = Some p ∧ lower_bound (keys nd) (keyCount nd) k p.
Proof.
  intros H. unfold findPos. apply findPos_unrolled_spec; [done|lia|lia|].
  intros j x Hj. lia.
Qed.

Lemma bind_intro {A B} (m : M A) (f : A → M B) st x st1 r :
  m st = Some (x, st1) → f x st1 = r → bind m f st = r.
Proof. unfold bind. by intros -> ->. Qed.

Lemma memcpy_Some {A} (dst src : list A) off cnt :
  off + cnt ≤ length src → cnt ≤ length dst →
  memcpy dst src off cnt = Some (take cnt (drop off src) ++ drop cnt dst).
Proof. intros. unfold memcpy. by rewrite decide_True. Qed.

Lemma ret_bind {A B} (x : A) (f : A → M B) st : bind (ret x) f st = f x st.
Proof. done. Qed.

(** Symbolic execution of one monadic step. *)

Ltac step H := rewrite (bind_Some _ _ _ _ _ H); cbv beta.

Ltac exec_load :=
  eapply bind_intro;
  [ apply load_Some; cbn [arena]; by simplify_map_eq
  | cbv beta; cbn [arena arenaOffset root] ].
Ltac exec_update :=
  eapply bind_intro;
  [ eapply update_Some; [cbn [arena]; by simplify_map_eq | ]
  | cbv beta; cbn [arena arenaOffset root] ].

Ltac nsimp :=
  unfold set_keyCount, set_vals, set_keys, set_child, Node_new;
  cbn [keys vals child leaf keyCount].

Section Verified.

(** [ORDER] is positive, [MAX_KEYS] fits the [uint16_t] field
    [keyCount], and a node occupies at least one byte. *)
Hypothesis ORDER_pos : 0 < ORDER.
Hypothesis MAX_KEYS_u16 : (Z.of_nat MAX_KEYS < 65536)%Z.
Hypothesis sizeofNode_pos : (0 < sizeofNode)%N.

(** ** Constants *)

Lemma u16_small n : n ≤ MAX_KEYS → u16 n = n.
Proof.
  intros Hn. unfold u16. rewrite Z.mod_small by lia. apply Nat2Z.id.
Qed.

Lemma mid_eq : mid = ORDER.
Proof. unfold mid, MAX_KEYS. apply Nat.div_mul. lia. Qed.

Lemma MAX_KEYS_eq : MAX_KEYS = 2 * ORDER.
Proof. unfold MAX_KEYS. lia. Qed.

(** ** The shifting loops, pointwise *)

Lemma lookup_wr {A} (l : list A) i x p :
  i < length l →
  <[i:=x]> l !! p = if decide (p = i) then Some x else l !! p.
Proof.
  intros Hi. case_decide as Hp.
  - subst. by apply list_lookup_insert_eq.
  - by apply list_lookup_insert_ne.
Qed.

Lemma shifted_refl {A} (l : list A) j : shifted l j j l.
Proof. split; [done|]. intros p. case_decide; [lia|done]. Qed.

Lemma shifted_opened {A} (l l' : list A) j n x :
  j < length l → shifted l j n l' → opened l j n x (<[j:=x]> l').
Proof.
  intros Hj [Hlen Hp]. split; [by rewrite length_insert|].
  intros p. rewrite lookup_wr by lia. case_decide; [done|]. apply Hp.
Qed.

Lemma lookup_insert_at {A} (K : list A) j x p :
  j ≤ length K →
  (take j K ++ x :: drop j K) !! p
  = if decide (p < j) then K !! p
    else if decide (p = j) then Some x else K !! (p - 1).
Proof.
  intros Hj. case_decide as H1.
  - rewrite lookup_app_l by (rewrite length_take; lia).
    by rewrite lookup_take_lt.
  - rewrite lookup_app_r by (rewrite length_take; lia).
    rewrite length_take, Nat.min_l by lia.
    case_decide as H2.
    + subst. by rewrite Nat.sub_diag.
    + destruct (p - j) as [|q] eqn:Hq; [lia|]. simpl.
      rewrite lookup_drop. f_equal. lia.
Qed.

Lemma opened_take {A} (l l' : list A) j n x :
  j ≤ n → n < length l → opened l j n x l' →
  take (S n) l' = take j (take n l) ++ x :: drop j (take n l).
Proof.
  intros Hj Hn [Hlen Hp]. apply list_eq. intros p.
  rewrite lookup_insert_at by (rewrite length_take; lia).
  destruct (decide (p < S n)) as [Hlt|Hge].
  - rewrite lookup_take_lt by done. rewrite Hp.
    repeat case_decide; try lia; try done.
    + by rewrite lookup_take_lt by lia.
    + by rewrite lookup_take_lt by lia.
  - rewrite lookup_take_ge by lia.
    repeat case_decide; try lia.
    by rewrite lookup_take_ge by lia.
Qed.

Lemma opened_outside {A} (l l' : list A) j n x p :
  j ≤ n → opened l j n x l' → n < p → l' !! p = l !! p.
Proof.
  intros Hj [_ Hp] Hn. rewrite Hp. repeat case_decide; try lia; done.
Qed.

Lemma shift_leaf_spec j k (ks : list Key) (vs : list Value) :
  j < length ks → j < length vs →
  ∃ j' ks' vs',
    shift_leaf j k ks vs = Some (j', ks', vs') ∧ j' ≤ j ∧
    (∀ i x, j' ≤ i < j → ks !! i = Some x → (k < x)%Z) ∧
    (∀ x, 0 < j' → ks !! (j' - 1) = Some x → (x ≤ k)%Z) ∧
    shifted ks j' j ks' ∧ shifted vs j' j vs'.
Proof.
  revert ks vs. induction j as [|i IH]; intros ks vs Hks Hvs.
  - exists 0, ks, vs. simpl.
    split_and!; try done; try lia; apply shifted_refl.
  - cbn [shift_leaf].
    destruct (rd_lt ks i) as [x Hx]; [lia|].
    destruct (rd_lt vs i) as [y Hy]; [lia|].
    rewrite Hx; simpl. unfold rd in Hx, Hy.
    destruct (decide (k < x)%Z) as [Hk|Hk].
    + rewrite wr_Some by done. simpl. unfold rd. rewrite Hy. simpl.
      rewrite wr_Some by done. simpl.
      destruct (IH (<[S i:=x]> ks) (<[S i:=y]> vs)) as
        (j' & ks' & vs' & Heq & Hj' & Hgt & Hle & [Hlk Hsk] & [Hlv Hsv]).
      { rewrite length_insert. lia. }
      { rewrite length_insert. lia. }
      exists j', ks', vs'. rewrite length_insert in Hlk. rewrite length_insert in Hlv.
      split_and!; [done|lia| | | |].
      * intros i0 x0 Hi0 Hx0. destruct (decide (i0 = i)) as [->|Hne].
        -- congruence.
        -- apply (Hgt i0); [lia|]. rewrite lookup_wr by done.
           case_decide; [lia|done].
      * intros x0 Hpos Hx0. apply Hle; [done|]. rewrite lookup_wr by done.
        case_decide; [lia|done].
      * split; [done|]. intros p. rewrite Hsk.
        rewrite !lookup_wr by done.
        repeat case_decide; try lia; try done.
        subst p. replace (S i - 1) with i by lia. by rewrite Hx.
      * split; [done|]. intros p. rewrite Hsv.
        rewrite !lookup_wr by done.
        repeat case_decide; try lia; try done.
        subst p. replace (S i - 1) with i by lia. by rewrite Hy.
    + exists (S i), ks, vs.
      split_and!; [done|done| | |apply shifted_refl|apply shifted_refl].
      * intros; lia.
      * intros x0 _ Hx0. replace (S i - 1) with i in Hx0 by lia.
        assert (x0 = x) by congruence. lia.
Qed.

Lemma shift_parent_spec cnt idx nd :
  idx + cnt < length (keys nd) → idx + cnt < length (vals nd) →
  idx + cnt + 1 < length (child nd) →
  ∃ ks vs cs,
    shift_parent cnt idx nd = Some (mkNode (leaf nd) (keyCount nd) ks vs cs) ∧
    shifted (keys nd) idx (idx + cnt) ks ∧
    shifted (vals nd) idx (idx + cnt) vs ∧
    shifted (child nd) (idx + 1) (idx + cnt + 1) cs.
Proof.
  revert nd. induction cnt as [|c IH]; intros nd Hk Hv Hc.
  - exists (keys nd), (vals nd), (child nd). simpl.
    rewrite !Nat.add_0_r. split_and!; [by destruct nd|..]; apply shifted_refl.
  - cbn [shift_parent]. cbv zeta.
    destruct (rd_lt (child nd) (idx + S c)) as [ci Hci]; [lia|].
    destruct (rd_lt (keys nd) (idx + S c - 1)) as [ki Hki]; [lia|].
    destruct (rd_lt (vals nd) (idx + S c - 1)) as [vi Hvi]; [lia|].
    rewrite Hci; simpl. rewrite wr_Some by lia; simpl.
    rewrite Hki; simpl. rewrite wr_Some by lia; simpl.
    rewrite Hvi; simpl. rewrite wr_Some by lia; simpl.
    unfold rd in *.
    edestruct (IH (mkNode (leaf nd) (keyCount nd)
                          (<[idx + S c:=ki]> (keys nd))
                          (<[idx + S c:=vi]> (vals nd))
                          (<[idx + S c + 1:=ci]> (child nd))))
      as (ks & vs & cs & Heq & [Hlk Hsk] & [Hlv Hsv] & [Hlc Hsc]);
      simpl; rewrite ?length_insert; try lia.
    simpl in *. rewrite length_insert in Hlk. rewrite length_insert in Hlv.
    rewrite length_insert in Hlc.
    exists ks, vs, cs. split_and!; [done| | |].
    + split; [done|]. intros p. rewrite Hsk. rewrite !lookup_wr by lia.
      repeat case_decide; try lia; try done.
      subst p. by rewrite Hki.
    + split; [done|]. intros p. rewrite Hsv. rewrite !lookup_wr by lia.
      repeat case_decide; try lia; try done.
      subst p. by rewrite Hvi.
    + split; [done|]. intros p. rewrite Hsc. rewrite !lookup_wr by lia.
      repeat case_decide; try lia; try done.
      subst p. rewrite <- Hci. f_equal. lia.
Qed.

(** ** The leaf case of insertNonFull, on one node *)

Lemma insert_leaf_spec k v nd :
  keyCount nd < MAX_KEYS →
  length (keys nd) = MAX_KEYS → length (vals nd) = MAX_KEYS →
  ∃ j ks vs,
    insert_leaf k v nd
    = Some (mkNode (leaf nd) (keyCount nd + 1) ks vs (child nd)) ∧
    j ≤ keyCount nd ∧
    (∀ i x, j ≤ i < keyCount nd → keys nd !! i = Some x → (k < x)%Z) ∧
    (∀ x, 0 < j → keys nd !! (j - 1) = Some x → (x ≤ k)%Z) ∧
    opened (keys nd) j (keyCount nd) k ks ∧
    opened (vals nd) j (keyCount nd) v vs.
Proof.
  intros Hkc Hlk Hlv. unfold insert_leaf.
  destruct (shift_leaf_spec (keyCount nd) k (keys nd) (vals nd))
    as (j & ks & vs & -> & Hj & Hgt & Hle & Hsk & Hsv); [lia|lia|].
  simpl. rewrite !wr_Some by (rewrite ?(proj1 Hsk), ?(proj1 Hsv); lia).
  simpl. rewrite u16_small by lia.
  exists j, (<[j:=k]> ks), (<[j:=v]> vs).
  split_and!; [done|done|done|done|..]; apply shifted_opened; (lia || done).
Qed.

(** ** splitChild on the store *)

Lemma splitChild_store st a c idx p f :
  arena st !! a = Some p →
  child p !! idx = Some (Some c) →
  arena st !! c = Some f →
  a ≠ c → a ≠ arenaOffset st → c ≠ arenaOffset st →
  keyCount f = MAX_KEYS →
  length (keys f) = MAX_KEYS → length (vals f) = MAX_KEYS →
  length (child f) = MAX_CHILD →
  idx ≤ keyCount p → keyCount p < MAX_KEYS →
  length (keys p) = MAX_KEYS → length (vals p) = MAX_KEYS →
  length (child p) = MAX_CHILD →
  ∃ h' m w ks vs cs,
    splitChild (Some a) idx st
    = Some (tt, mkTree (root st) (arenaOffset st + sizeofNode) h') ∧
    keys f !! mid = Some m ∧ vals f !! mid = Some w ∧
    opened (keys p) idx (keyCount p) m ks ∧
    opened (vals p) idx (keyCount p) w vs ∧
    opened (child p) (idx + 1) (keyCount p + 1) (Some (arenaOffset st)) cs ∧
    h' !! a = Some (mkNode (leaf p) (keyCount p + 1) ks vs cs) ∧
    h' !! c = Some (mkNode (leaf f) mid (keys f) (vals f) (child f)) ∧
    h' !! arenaOffset st = Some (sibling f) ∧
    (∀ x, x ≠ a → x ≠ c → x ≠ arenaOffset st → h' !! x = arena st !! x).
Proof.
  intros Ha Hidx Hc Hac Hao Hco Hfull Hfk Hfv Hfc Hi Hp Hpk Hpv Hpc.
  pose proof mid_eq as Hmid. pose proof MAX_KEYS_eq as HMAX.
  unfold MAX_CHILD in *.
  destruct (rd_lt (keys f) mid) as [m Hm]; [lia|].
  destruct (rd_lt (vals f) mid) as [w Hw]; [lia|].
  destruct (shift_parent_spec (keyCount p - idx) idx p)
    as (ks & vs & cs & Hsh & Hsk & Hsv & Hsc); [lia..|].
  replace (idx + (keyCount p - idx)) with (keyCount p) in * by lia.
  destruct st as [r o h]. cbn [arena arenaOffset root] in *.
  assert (Hu : u16 (MAX_KEYS - mid - 1) = MAX_KEYS - mid - 1)
    by (apply u16_small; lia).
  destruct (leaf f) eqn:Hlf;
  (eexists _, m, w, (<[idx:=m]> ks), (<[idx:=w]> vs),
     (<[idx + 1:=Some o]> cs);
   split_and!; [|done|done|apply shifted_opened; (lia || done)..| | | |];
   [ unfold splitChild;
     exec_load;
     (eapply bind_intro; [unfold lift, rd; by rewrite Hidx|cbv beta]);
     exec_load; (eapply bind_intro; [reflexivity|cbv beta]);
     cbn [arenaOffset arena root];
     (exec_update; [reflexivity|]);
     exec_load;
     (exec_update;
      [nsimp; rewrite ?Hu;
       rewrite memcpy_Some
         by (rewrite ?length_replicate; unfold MAX_CHILD; lia);
       reflexivity|]);
     exec_load;
     (exec_update;
      [nsimp; rewrite ?Hu;
       rewrite memcpy_Some
         by (rewrite ?length_replicate; unfold MAX_CHILD; lia);
       reflexivity|]);
     exec_load; rewrite Hlf; cbv iota;
     first
       [ exec_update;
         [nsimp; rewrite ?Hu;
          rewrite memcpy_Some
         by (rewrite ?length_replicate; unfold MAX_CHILD; lia);
          reflexivity|]
       | eapply bind_intro; [reflexivity|cbv beta] ];
     (exec_update; [reflexivity|]);
     (exec_update; [exact Hsh|]);
     (exec_update;
      [nsimp; rewrite wr_Some by (rewrite (proj1 Hsc); lia); reflexivity|]);
     exec_load;
     (exec_update;
      [nsimp; rewrite Hm; cbn [mbind option_bind];
       rewrite wr_Some by (rewrite (proj1 Hsk); lia); reflexivity|]);
     exec_load;
     (exec_update;
      [nsimp; rewrite Hw; cbn [mbind option_bind];
       rewrite wr_Some by (rewrite (proj1 Hsv); lia); reflexivity|]);
     (erewrite update_Some; [|cbn [arena]; by simplify_map_eq|reflexivity]);
     reflexivity
   | simplify_map_eq; nsimp; by rewrite u16_small by lia
   | simplify_map_eq; nsimp; rewrite ?Hlf; by rewrite u16_small by lia
   | simplify_map_eq; unfold sibling; nsimp; by rewrite ?Hlf, ?Hu
   | intros x ???; by simplify_map_eq ]).
Qed.

(** ** Represented trees *)

Lemma tree_induction (P : tree → Prop) :
  (∀ a lf es ts, Forall P ts → P (Tr a lf es ts)) → ∀ t, P t.
Proof.
  intros IH. fix go 1. intros [a lf es ts]. apply IH.
  induction ts as [|t ts IHts]; constructor; [apply go|apply IHts].
Qed.

Lemma taddr_in_addrs t : taddr t ∈ addrs t.
Proof. destruct t; simpl. apply list_elem_of_here. Qed.

Lemma addrs_child a lf es ts i t x :
  ts !! i = Some t → x ∈ addrs t → x ∈ addrs (Tr a lf es ts).
Proof.
  intros Hi Hx. simpl. apply list_elem_of_further.
  apply list_elem_of_bind. exists t. split; [done|].
  by eapply list_elem_of_lookup_2.
Qed.

Lemma entries_child a lf es ts i t e :
  ts !! i = Some t → e ∈ entries t → e ∈ entries (Tr a lf es ts).
Proof.
  intros Hi Hx. simpl. apply elem_of_app. right.
  apply list_elem_of_bind. exists t. split; [done|].
  by eapply list_elem_of_lookup_2.
Qed.

Lemma repr_frame h h' t :
  repr h t → (∀ x, x ∈ addrs t → h' !! x = h !! x) → repr h' t.
Proof.
  induction t as [a lf es ts IH] using tree_induction.
  intros Hr Hfr. inversion Hr; subst.
  econstructor; try done.
  - rewrite Hfr; [done|]. apply list_elem_of_here.
  - rewrite Forall_forall in *. intros t Ht.
    apply IH; [done|by auto|].
    intros x Hx. apply Hfr. simpl. apply list_elem_of_further.
    apply list_elem_of_bind. by exists t.
Qed.

Lemma take_eq_lookup {A} (l K : list A) n i :
  take n l = K → i < n → l !! i = K !! i.
Proof. intros <- Hi. by rewrite lookup_take_lt. Qed.

Lemma lookup_fst_snd {A B} (es : list (A * B)) i x y :
  es.*1 !! i = Some x → es.*2 !! i = Some y → es !! i = Some (x, y).
Proof.
  rewrite !list_lookup_fmap. destruct (es !! i) as [[a b]|]; simpl; congruence.
Qed.

(** A node whose scan stops at [p] without a hit does not hold [k]. *)
Lemma lower_bound_miss ks n k p :
  lower_bound ks n k p → nondecreasing (take n ks) →
  ¬ (p < n ∧ ks !! p = Some k) → k ∉ take n ks.
Proof.
  intros (Hpn & Hlt & Hge) Hnd Hmiss Hin.
  apply list_elem_of_lookup in Hin as [j Hj].
  apply lookup_take_Some in Hj as [Hj Hjn].
  destruct (decide (j < p)) as [Hjp|Hjp].
  { specialize (Hlt j k Hjp Hj). lia. }
  assert (p < n) as Hp by lia.
  destruct (lookup_lt_is_Some_2 ks p) as [x Hx].
  { apply lookup_lt_Some in Hj. lia. }
  specialize (Hge x Hp Hx).
  assert (x ≤ k)%Z.
  { apply (Hnd p j); [lia|by rewrite lookup_take_lt..]. }
  apply Hmiss. split; [done|]. rewrite Hx. f_equal. lia.
Qed.

(** ** search on a represented tree *)

Lemma search_loop_spec d :
  ∀ t fuel st k,
    repr (arena st) t → wf d t → d ≤ fuel →
    ∃ r, search_loop fuel (Some (taddr t)) k st = Some (r, st) ∧
         match r with
         | Some (a, i) =>
             ∃ nd v, arena st !! a = Some nd ∧ i < keyCount nd ∧
                     keys nd !! i = Some k ∧ vals nd !! i = Some v ∧
                     (k, v) ∈ entries t ∧ a ∈ addrs t
         | None => k ∉ tkeys t
         end.
Proof.
  induction d as [|d IH]; intros t fuel st k Hr Hwf Hfuel; [inversion Hwf|].
  destruct fuel as [|fuel]; [lia|].
  assert (∃ a lf es ts, t = Tr a lf es ts) as (a & lf & es & ts & ->)
    by (destruct t; eauto).
  inversion Hr as [? ? ? ? nd Ha Hlf Hkc Hlk Hlv Hlc Hks Hvs Hcs Hkids];
    subst.
  assert (Hnd : nondecreasing (take (keyCount nd) (keys nd))).
  { rewrite Hkc, Hks. inversion Hwf; subst; done. }
  assert (Hle : length es ≤ MAX_KEYS) by (inversion Hwf; subst; done).
  destruct (findPos_spec nd k) as (p & Hfp & Hlb); [lia|].
  cbn [search_loop taddr].
  step (load_Some _ _ _ Ha). step (lift_Some _ _ st Hfp).
  destruct (decide (p < keyCount nd ∧ keys nd !! p = Some k)) as [[Hp Hhit]|Hmiss].
  - (* the key is in this node *)
    erewrite bind_Some.
    2:{ apply lift_Some. unfold rd. rewrite decide_True by done.
        rewrite Hhit. simpl. by rewrite bool_decide_eq_true_2. }
    cbv beta iota. eexists. split; [reflexivity|]. simpl.
    destruct (lookup_lt_is_Some_2 (vals nd) p) as [v Hv]; [lia|].
    exists nd, v. split_and!; try done.
    + apply elem_of_app. left. apply list_elem_of_lookup. exists p.
      apply lookup_fst_snd.
      * by rewrite <- (take_eq_lookup _ _ _ _ Hks) by lia.
      * by rewrite <- (take_eq_lookup _ _ _ _ Hvs) by lia.
    + apply list_elem_of_here.
  - erewrite (bind_Some _ _ _ false).
    2:{ apply lift_Some. unfold rd.
        destruct (decide (p < keyCount nd)) as [Hp|Hp]; [|done].
        destruct (lookup_lt_is_Some_2 (keys nd) p) as [x Hx]; [lia|].
        rewrite Hx. simpl. rewrite bool_decide_eq_false_2; [done|].
        intros ->. by apply Hmiss. }
    cbv beta iota.
    pose proof (lower_bound_miss _ _ _ _ Hlb Hnd Hmiss) as Hnode.
    rewrite Hkc, Hks in Hnode.
    inversion Hwf as [? ? _ _|? ? ? ? _ Hlen _ Hsub Hlo Hhi]; subst.
    + (* a leaf *)
      simpl. exists None. split; [done|].
      unfold tkeys. simpl. by rewrite app_nil_r.
    + (* an internal node: descend into child [p] *)
      cbn [leaf]. replace (leaf nd) with false by done.
      destruct Hlb as (Hpn & Hplt & Hpge).
      destruct (lookup_lt_is_Some_2 ts p) as [tp Htp]; [lia|].
      assert (child nd !! p = Some (Some (taddr tp))) as Hcp.
      { rewrite (take_eq_lookup _ _ _ _ Hcs) by lia.
        by rewrite list_lookup_fmap, Htp. }
      step (lift_Some _ _ st Hcp).
      destruct (IH tp fuel st k) as (r & Hsearch & Hres).
      { rewrite Forall_forall in Hkids. apply Hkids.
        by eapply list_elem_of_lookup_2. }
      { rewrite Forall_forall in Hsub. apply Hsub.
        by eapply list_elem_of_lookup_2. }
      { lia. }
      exists r. split; [done|].
      destruct r as [[b i]|].
      * destruct Hres as (nb & v & ? & ? & ? & ? & ? & ?).
        exists nb, v. split_and!; try done.
        -- by eapply entries_child.
        -- by eapply addrs_child.
      * intros Hin. unfold tkeys in Hin. simpl in Hin.
        rewrite fmap_app in Hin. apply elem_of_app in Hin as [Hin|Hin];
          [done|].
        apply list_elem_of_fmap in Hin as ([k' v'] & Hk & Hin). simpl in Hk.
        subst k'.
        apply list_elem_of_bind in Hin as (tj & Hin & Htj).
        apply list_elem_of_lookup in Htj as [j Htj].
        assert (Hkj : k ∈ tkeys tj).
        { unfold tkeys. apply list_elem_of_fmap. by exists (k, v'). }
        destruct (decide (j = p)) as [->|Hjp].
        { assert (tj = tp) by congruence. subst. done. }
        assert (j < length ts) by (by eapply lookup_lt_Some).
        destruct (decide (j < p)) as [Hlt|Hgt].
        -- destruct (lookup_lt_is_Some_2 (es.*1) j) as [x Hx].
           { rewrite length_fmap. lia. }
           pose proof (Hlo j tj x Htj Hx) as Hall.
           rewrite Forall_forall in Hall. specialize (Hall k Hkj).
           assert (x < k)%Z; [|lia].
           apply (Hplt j); [done|].
           by rewrite (take_eq_lookup _ _ _ _ Hks) by lia.
        -- destruct j as [|j]; [lia|].
           destruct (lookup_lt_is_Some_2 (es.*1) j) as [x Hx].
           { rewrite length_fmap. lia. }
           pose proof (Hhi j tj x Htj Hx) as Hall.
           rewrite Forall_forall in Hall. specialize (Hall k Hkj).
           destruct (lookup_lt_is_Some_2 (keys nd) p) as [y Hy]; [lia|].
           assert (k ≤ y)%Z by (apply Hpge; [lia|done]).
           assert (y ≤ x)%Z.
           { apply (Hnd p j); [lia|rewrite lookup_take_lt by lia; done|].
             rewrite lookup_take_lt by lia.
             by rewrite (take_eq_lookup _ _ _ _ Hks) by lia. }
           apply Hmiss. split; [lia|]. rewrite Hy. f_equal. lia.
Qed.

(** ** Inserting into the middle of a list *)

Lemma lookup_ins {A} (l : list A) j x p :
  j ≤ length l →
  ins j x l !! p = if decide (p < j) then l !! p
                   else if decide (p = j) then Some x else l !! (p - 1).
Proof. apply lookup_insert_at. Qed.

Lemma length_ins {A} (l : list A) j x : length (ins j x l) = S (length l).
Proof.
  unfold ins. rewrite length_app. simpl. rewrite length_take, length_drop. lia.
Qed.

Lemma ins_perm {A} (l : list A) j x : ins j x l ≡ₚ x :: l.
Proof.
  unfold ins. rewrite <- Permutation_middle. by rewrite take_drop.
Qed.

Lemma fmap_ins {A B} (f : A → B) (l : list A) j x :
  f <$> ins j x l = ins j (f x) (f <$> l).
Proof. unfold ins. by rewrite fmap_app, fmap_cons, fmap_take, fmap_drop. Qed.

Lemma opened_ins {A} (l l' : list A) j n x :
  j ≤ n → n < length l → opened l j n x l' →
  take (S n) l' = ins j x (take n l).
Proof. apply opened_take. Qed.

Lemma nondecreasing_ins ks j k :
  nondecreasing ks → j ≤ length ks →
  (∀ i x, i < j → ks !! i = Some x → (x ≤ k)%Z) →
  (∀ i x, j ≤ i → ks !! i = Some x → (k ≤ x)%Z) →
  nondecreasing (ins j k ks).
Proof.
  intros Hnd Hj Hlo Hhi p q x y Hpq.
  rewrite !lookup_ins by done.
  repeat case_decide; try lia; intros Hx Hy; simplify_eq; try lia.
  - by apply (Hnd p q).
  - by apply (Hlo p).
  - apply (Hnd p (q - 1)); [lia|done..].
  - apply (Hhi (q - 1)); [lia|done].
  - apply (Hnd (p - 1) (q - 1)); [lia|done..].
Qed.

Lemma nondecreasing_take ks n : nondecreasing ks → nondecreasing (take n ks).
Proof.
  intros Hnd i j x y Hij [Hx _]%lookup_take_Some [Hy _]%lookup_take_Some.
  by apply (Hnd i j).
Qed.

Lemma nondecreasing_drop ks n : nondecreasing ks → nondecreasing (drop n ks).
Proof.
  intros Hnd i j x y Hij. rewrite !lookup_drop. intros Hx Hy.
  apply (Hnd (n + i) (n + j)); [lia|done..].
Qed.

(** ** Splitting a full node, on trees *)

Lemma tkeys_node a lf es ts y :
  y ∈ tkeys (Tr a lf es ts) ↔
  y ∈ es.*1 ∨ ∃ i t, ts !! i = Some t ∧ y ∈ tkeys t.
Proof.
  unfold tkeys. simpl. rewrite fmap_app, elem_of_app. split.
  - intros [?|Hy]; [by left|right].
    apply list_elem_of_fmap in Hy as (e & -> & He).
    apply list_elem_of_bind in He as (t & He & Ht).
    apply list_elem_of_lookup in Ht as [i Hi].
    exists i, t. split; [done|]. apply list_elem_of_fmap. by exists e.
  - intros [?|(i & t & Hi & Hy)]; [by left|right].
    apply list_elem_of_fmap in Hy as (e & -> & He).
    apply list_elem_of_fmap. exists e. split; [done|].
    apply list_elem_of_bind. exists t. split; [done|].
    by eapply list_elem_of_lookup_2.
Qed.

Lemma split_entries o t m :
  tents t !! mid = Some m →
  entries t ≡ₚ m :: entries (split_left t) ++ entries (split_right o t).
Proof.
  destruct t as [c lf es ts]. simpl. intros Hm.
  rewrite <- (take_drop_middle es mid m Hm) at 1.
  rewrite <- (take_drop (mid + 1) ts) at 1.
  rewrite bind_app. replace (S mid) with (mid + 1) by lia.
  rewrite <- !app_assoc. rewrite <- app_comm_cons.
  rewrite <- Permutation_middle. constructor.
  apply Permutation_app_head.
  rewrite !app_assoc. apply Permutation_app_tail. apply Permutation_app_comm.
Qed.

Lemma split_addrs o t :
  addrs (split_left t) ++ addrs (split_right o t) ≡ₚ o :: addrs t.
Proof.
  destruct t as [c lf es ts]. simpl.
  rewrite <- (take_drop (mid + 1) ts) at 3. rewrite bind_app.
  by rewrite app_comm_cons, <- Permutation_middle.
Qed.

Lemma split_left_keys t y : y ∈ tkeys (split_left t) → y ∈ tkeys t.
Proof.
  destruct t as [c lf es ts]. simpl. rewrite !tkeys_node.
  intros [Hy|(i & t & Hi & Hy)].
  - left. rewrite fmap_take in Hy. by eapply subseteq_take.
  - right. apply lookup_take_Some in Hi as [Hi _]. eauto.
Qed.

Lemma split_right_keys o t y : y ∈ tkeys (split_right o t) → y ∈ tkeys t.
Proof.
  destruct t as [c lf es ts]. simpl. rewrite !tkeys_node.
  intros [Hy|(i & t & Hi & Hy)].
  - left. rewrite fmap_drop in Hy. by eapply subseteq_drop.
  - right. rewrite lookup_drop in Hi. eauto.
Qed.

Lemma wf_split_left d t :
  wf d t → length (tents t) = MAX_KEYS → wf d (split_left t).
Proof.
  pose proof mid_eq. pose proof MAX_KEYS_eq.
  intros Hwf Hlen. inversion Hwf as [a es Hle Hnd|d' a es ts Hle Hts Hnd Hsub Hlo Hhi];
    subst; simpl in *.
  - rewrite take_nil. constructor.
    + rewrite length_take. lia.
    + rewrite fmap_take. by apply nondecreasing_take.
  - constructor.
    + rewrite length_take. lia.
    + rewrite !length_take. lia.
    + rewrite fmap_take. by apply nondecreasing_take.
    + by apply Forall_take.
    + intros i t x [Hi ?]%lookup_take_Some. rewrite fmap_take.
      intros [Hx ?]%lookup_take_Some. by apply (Hlo i).
    + intros i t x [Hi ?]%lookup_take_Some. rewrite fmap_take.
      intros [Hx ?]%lookup_take_Some. by apply (Hhi i).
Qed.

Lemma wf_split_right d o t :
  wf d t → length (tents t) = MAX_KEYS → wf d (split_right o t).
Proof.
  pose proof mid_eq. pose proof MAX_KEYS_eq.
  intros Hwf Hlen. inversion Hwf as [a es Hle Hnd|d' a es ts Hle Hts Hnd Hsub Hlo Hhi];
    subst; simpl in *.
  - rewrite drop_nil. constructor.
    + rewrite length_drop. lia.
    + rewrite fmap_drop. by apply nondecreasing_drop.
  - constructor.
    + rewrite length_drop. lia.
    + rewrite !length_drop. lia.
    + rewrite fmap_drop. by apply nondecreasing_drop.
    + by apply Forall_drop.
    + intros i t x. rewrite fmap_drop, !lookup_drop. apply Hlo.
    + intros i t x. rewrite fmap_drop, !lookup_drop.
      replace (mid + 1 + S i) with (S (mid + 1 + i)) by lia. apply Hhi.
Qed.

Lemma lookup_fst {A B} (es : list (A * B)) i e :
  es !! i = Some e → es.*1 !! i = Some e.1.
Proof. intros H. by rewrite list_lookup_fmap, H. Qed.

Lemma split_left_le d t m :
  wf d t → tents t !! mid = Some m →
  Forall (λ y, (y ≤ m.1)%Z) (tkeys (split_left t)).
Proof.
  intros Hwf Hm. apply lookup_fst in Hm as Hm1.
  apply Forall_forall. intros y Hy.
  inversion Hwf as [a es Hle Hnd|d' a es ts Hle Hts Hnd Hsub Hlo Hhi];
    subst; simpl in *; apply tkeys_node in Hy as [Hy|(i & t & Hi & Hy)].
  - rewrite fmap_take in Hy. apply elem_of_take in Hy as (j & Hj & Hlt).
    apply (Hnd j mid); [lia|done..].
  - by rewrite take_nil in Hi.
  - rewrite fmap_take in Hy. apply elem_of_take in Hy as (j & Hj & Hlt).
    apply (Hnd j mid); [lia|done..].
  - apply lookup_take_Some in Hi as [Hi Hlt].
    destruct (lookup_lt_is_Some_2 (es.*1) i) as [x Hx].
    { apply lookup_lt_Some in Hm1. lia. }
    pose proof (Hlo i t x Hi Hx) as Hall. rewrite Forall_forall in Hall.
    specialize (Hall y Hy).
    assert (x ≤ m.1)%Z; [|lia]. apply (Hnd i mid); [lia|done..].
Qed.

Lemma split_right_ge d o t m :
  wf d t → tents t !! mid = Some m →
  Forall (λ y, (m.1 ≤ y)%Z) (tkeys (split_right o t)).
Proof.
  intros Hwf Hm. apply lookup_fst in Hm as Hm1.
  apply Forall_forall. intros y Hy.
  inversion Hwf as [a es Hle Hnd|d' a es ts Hle Hts Hnd Hsub Hlo Hhi];
    subst; simpl in *; apply tkeys_node in Hy as [Hy|(i & t & Hi & Hy)].
  - rewrite fmap_drop in Hy. apply list_elem_of_lookup in Hy as [j Hj].
    rewrite lookup_drop in Hj. apply (Hnd mid (mid + 1 + j)); [lia|done..].
  - by rewrite drop_nil in Hi.
  - rewrite fmap_drop in Hy. apply list_elem_of_lookup in Hy as [j Hj].
    rewrite lookup_drop in Hj. apply (Hnd mid (mid + 1 + j)); [lia|done..].
  - rewrite lookup_drop in Hi.
    replace (mid + 1 + i) with (S (mid + i)) in Hi by lia.
    destruct (lookup_lt_is_Some_2 (es.*1) (mid + i)) as [x Hx].
    { apply lookup_lt_Some in Hi. rewrite length_fmap. lia. }
    pose proof (Hhi (mid + i) t x Hi Hx) as Hall.
    rewrite Forall_forall in Hall. specialize (Hall y Hy).
    assert (m.1 ≤ x)%Z; [|lia]. apply (Hnd mid (mid + i)); [lia|done..].
Qed.

Lemma lookup_split_kids o idx tc (ts : list tree) i :
  idx < length ts →
  ins (idx + 1) (split_right o tc) (<[idx:=split_left tc]> ts) !! i
  = if decide (i < idx) then ts !! i
    else if decide (i = idx) then Some (split_left tc)
    else if decide (i = idx + 1) then Some (split_right o tc)
    else ts !! (i - 1).
Proof.
  intros Hidx. rewrite lookup_ins by (rewrite length_insert; lia).
  rewrite !lookup_wr by done.
  repeat case_decide; try lia; done.
Qed.

Lemma wf_split_parent d a es ts idx tc m o :
  wf (S d) (Tr a false es ts) → length es < MAX_KEYS →
  ts !! idx = Some tc → length (tents tc) = MAX_KEYS →
  tents tc !! mid = Some m →
  wf (S d) (Tr a false (ins idx m es)
              (ins (idx + 1) (split_right o tc) (<[idx:=split_left tc]> ts))).
Proof.
  intros Hwf Hlt Htc Hfull Hm.
  inversion Hwf as [|d' a' es' ts' Hle Hts Hnd Hsub Hlo Hhi]; subst.
  assert (Hidx : idx < length ts) by (by eapply lookup_lt_Some).
  assert (Hwfc : wf d tc).
  { rewrite Forall_forall in Hsub. apply Hsub.
    by eapply list_elem_of_lookup_2. }
  assert (Hmk : m.1 ∈ tkeys tc).
  { destruct tc as [c lf esc tsc]. apply tkeys_node. left. simpl in Hm.
    apply list_elem_of_lookup. exists mid. by apply lookup_fst. }
  pose proof (split_left_le _ _ _ Hwfc Hm) as Hl.
  pose proof (split_right_ge _ o _ _ Hwfc Hm) as Hr.
  rewrite Forall_forall in Hl, Hr.
  constructor.
  - rewrite length_ins. lia.
  - rewrite !length_ins, length_insert. lia.
  - rewrite fmap_ins. apply nondecreasing_ins; [done|rewrite length_fmap; lia|..].
    + intros i x Hi Hx. destruct idx as [|idx]; [lia|].
      assert (Hi' : i ≤ idx) by lia.
      destruct (lookup_lt_is_Some_2 (es.*1) idx) as [x' Hx'].
      { rewrite length_fmap. lia. }
      pose proof (Hhi idx tc x' Htc Hx') as Hall.
      rewrite Forall_forall in Hall. specialize (Hall _ Hmk).
      assert (x ≤ x')%Z; [|lia]. by apply (Hnd i idx).
    + intros i x Hi Hx.
      destruct (lookup_lt_is_Some_2 (es.*1) idx) as [x' Hx'].
      { apply lookup_lt_Some in Hx. lia. }
      pose proof (Hlo idx tc x' Htc Hx') as Hall.
      rewrite Forall_forall in Hall. specialize (Hall _ Hmk).
      assert (x' ≤ x)%Z; [|lia]. by apply (Hnd idx i).
  - unfold ins. apply Forall_app. split; [apply Forall_take|constructor].
    + apply Forall_insert; [done|by apply wf_split_left].
    + by apply wf_split_right.
    + apply Forall_drop. apply Forall_insert; [done|by apply wf_split_left].
  - intros i t x. rewrite lookup_split_kids by done.
    rewrite fmap_ins, lookup_ins by (rewrite length_fmap; lia).
    repeat case_decide; try lia; intros Ht Hx; simplify_eq.
    + by apply (Hlo i).
    + apply Forall_forall, Hl.
    + apply Forall_forall. intros y Hy%split_right_keys.
      replace (idx + 1 - 1) with idx in Hx by lia.
      pose proof (Hlo idx tc x Htc Hx) as Hall.
      rewrite Forall_forall in Hall. by apply Hall.
    + by apply (Hlo (i - 1)).
  - intros i t x. rewrite lookup_split_kids by done.
    rewrite fmap_ins, lookup_ins by (rewrite length_fmap; lia).
    repeat case_decide; try lia; intros Ht Hx; simplify_eq.
    + by apply (Hhi i).
    + apply Forall_forall. intros y Hy%split_left_keys.
      pose proof (Hhi i tc x Htc Hx) as Hall.
      rewrite Forall_forall in Hall. by apply Hall.
    + apply Forall_forall, Hr.
    + destruct i as [|i]; [lia|]. simpl in *.
      rewrite Nat.sub_0_r in *. by apply (Hhi i).
Qed.

(** ** Separation: the nodes of a tree have distinct addresses *)

Lemma NoDup_bind_lookup {A B} (f : A → list B) (ts : list A) i j ti tj x :
  NoDup (ts ≫= f) → i ≠ j → ts !! i = Some ti → ts !! j = Some tj →
  x ∈ f ti → x ∉ f tj.
Proof.
  revert i j. induction ts as [|t ts IH]; intros i j Hnd Hij Hi Hj Hxi Hxj;
    [done|].
  rewrite bind_cons in Hnd. apply NoDup_app in Hnd as (_ & Hdisj & Hnd).
  destruct i as [|i], j as [|j]; simpl in *; simplify_eq.
  - apply (Hdisj x Hxi). apply list_elem_of_bind. exists tj.
    split; [done|]. by eapply list_elem_of_lookup_2.
  - apply (Hdisj x Hxj). apply list_elem_of_bind. exists ti.
    split; [done|]. by eapply list_elem_of_lookup_2.
  - apply (IH i j); auto.
Qed.

Lemma NoDup_bind_elem {A B} (f : A → list B) (ts : list A) i t :
  NoDup (ts ≫= f) → ts !! i = Some t → NoDup (f t).
Proof.
  intros Hnd Hi. rewrite <- (take_drop_middle ts i t Hi) in Hnd.
  rewrite bind_app, bind_cons in Hnd.
  apply NoDup_app in Hnd as (_ & _ & Hnd).
  by apply NoDup_app in Hnd as (? & _ & _).
Qed.

Lemma NoDup_addrs_child a lf es ts i t :
  NoDup (addrs (Tr a lf es ts)) → ts !! i = Some t →
  NoDup (addrs t) ∧ a ∉ addrs t.
Proof.
  simpl. intros [Ha Hnd]%NoDup_cons Hi. split.
  - by eapply NoDup_bind_elem.
  - intros Hin. apply Ha. apply list_elem_of_bind. exists t.
    split; [done|]. by eapply list_elem_of_lookup_2.
Qed.

Lemma repr_child h a lf es ts i t :
  repr h (Tr a lf es ts) → ts !! i = Some t → repr h t.
Proof.
  intros Hr Hi. inversion Hr as [? ? ? ? ? ? ? ? ? ? ? ? ? ? Hkids]; subst.
  rewrite Forall_forall in Hkids. apply Hkids.
  by eapply list_elem_of_lookup_2.
Qed.

Lemma wf_child d a lf es ts i t :
  wf (S d) (Tr a lf es ts) → ts !! i = Some t → wf d t.
Proof.
  intros Hwf Hi. inversion Hwf as [|? ? ? ? ? ? ? Hsub]; subst; [done|].
  rewrite Forall_forall in Hsub. apply Hsub.
  by eapply list_elem_of_lookup_2.
Qed.

(** ** splitChild on a represented tree *)

Lemma repr_kids_frame h h' a lf es ts (ts' : list tree) :
  repr h (Tr a lf es ts) → (∀ t, t ∈ ts' → t ∈ ts) →
  (∀ x, x ∈ ts ≫= addrs → h' !! x = h !! x) →
  Forall (repr h') ts'.
Proof.
  intros Hr Hsub Hfr. apply Forall_forall. intros t Ht.
  apply Hsub in Ht. apply list_elem_of_lookup in Ht as [i Hi].
  apply repr_frame with h; [by eapply repr_child|].
  intros x Hx. apply Hfr. apply list_elem_of_bind. exists t.
  split; [done|]. by eapply list_elem_of_lookup_2.
Qed.

Lemma repr_split_left h h' tc f :
  repr h tc → length (tents tc) = MAX_KEYS →
  h !! taddr tc = Some f →
  h' !! taddr tc = Some (mkNode (leaf f) mid (keys f) (vals f) (child f)) →
  (∀ x, x ∈ addrs tc → x ≠ taddr tc → h' !! x = h !! x) →
  NoDup (addrs tc) →
  repr h' (split_left tc).
Proof.
  pose proof mid_eq. pose proof MAX_KEYS_eq.
  intros Hr Hfull Hf Hf' Hfr Hnd. destruct tc as [c lf es ts].
  inversion Hr as [? ? ? ? nd Hc Hlf Hkc Hlk Hlv Hlc Hks Hvs Hcs Hkids];
    subst. simpl in *. assert (nd = f) by congruence. subst nd.
  apply NoDup_cons in Hnd as [Hc' Hnd].
  econstructor; [exact Hf'|simpl..|].
  - done.
  - rewrite length_take. lia.
  - done.
  - done.
  - done.
  - rewrite length_take, fmap_take, <- Hks, take_take. f_equal; lia.
  - rewrite length_take, fmap_take, <- Hvs, take_take. f_equal; lia.
  - rewrite length_take, fmap_take, <- Hcs, take_take. f_equal; lia.
  - eapply repr_kids_frame; [done|apply subseteq_take|].
    intros x Hx. apply Hfr; [by apply list_elem_of_further|].
    intros ->. done.
Qed.

Lemma repr_split_right h h' o d tc f :
  repr h tc → wf d tc → length (tents tc) = MAX_KEYS →
  h !! taddr tc = Some f →
  h' !! o = Some (sibling f) →
  (∀ x, x ∈ addrs tc → x ≠ taddr tc → h' !! x = h !! x) →
  NoDup (addrs tc) →
  repr h' (split_right o tc).
Proof.
  pose proof mid_eq. pose proof MAX_KEYS_eq.
  intros Hr Hwf Hfull Hf Hf' Hfr Hnd. destruct tc as [c lf es ts].
  inversion Hr as [? ? ? ? nd Hc Hlf Hkc Hlk Hlv Hlc Hks Hvs Hcs Hkids];
    subst. simpl in *. assert (nd = f) by congruence. subst nd.
  apply NoDup_cons in Hnd as [Hc' Hnd].
  rewrite take_ge in Hks by lia. rewrite take_ge in Hvs by lia.
  econstructor; [exact Hf'|unfold sibling; simpl..|].
  - done.
  - rewrite length_drop. lia.
  - rewrite length_app, length_take, !length_drop, length_replicate. lia.
  - rewrite length_app, length_take, !length_drop, length_replicate. lia.
  - unfold MAX_CHILD in *. destruct (leaf f); [by rewrite length_replicate|].
    rewrite length_app, length_take, !length_drop, length_replicate. lia.
  - rewrite length_drop, fmap_drop, <- Hks.
    rewrite take_app_le by (rewrite length_take, length_drop; lia).
    rewrite take_take, take_ge; [done|]. rewrite length_drop. lia.
  - rewrite length_drop, fmap_drop, <- Hvs.
    rewrite take_app_le by (rewrite length_take, length_drop; lia).
    rewrite take_take, take_ge; [done|]. rewrite length_drop. lia.
  - inversion Hwf as [|? ? ? ? ? Hts]; subst.
    + by rewrite drop_nil.
    + replace (leaf f) with false by done. unfold MAX_CHILD in *.
      rewrite take_ge in Hcs by lia.
      rewrite length_drop, fmap_drop, <- Hcs.
      rewrite take_app_le by (rewrite length_take, length_drop; lia).
      rewrite take_take, take_ge; [done|]. rewrite length_drop. lia.
  - eapply repr_kids_frame; [done|apply subseteq_drop|].
    intros x Hx. apply Hfr; [by apply list_elem_of_further|].
    intros ->. done.
Qed.

Lemma splitChild_repr st a es ts idx tc d :
  repr (arena st) (Tr a false es ts) →
  wf (S d) (Tr a false es ts) →
  NoDup (addrs (Tr a false es ts)) →
  (∀ x, x ∈ addrs (Tr a false es ts) → (x < arenaOffset st)%N) →
  length es < MAX_KEYS → ts !! idx = Some tc →
  length (tents tc) = MAX_KEYS →
  ∃ st' m,
    splitChild (Some a) idx st = Some (tt, st') ∧
    root st' = root st ∧
    arenaOffset st' = (arenaOffset st + sizeofNode)%N ∧
    tents tc !! mid = Some m ∧
    repr (arena st')
      (Tr a false (ins idx m es)
          (ins (idx + 1) (split_right (arenaOffset st) tc)
               (<[idx:=split_left tc]> ts))) ∧
    (∀ x, x ∉ addrs (Tr a false es ts) → x ≠ arenaOffset st →
          arena st' !! x = arena st !! x).
Proof.
  pose proof mid_eq as Hmid. pose proof MAX_KEYS_eq as HMAX.
  intros Hr Hwf Hnd Hlt Hes Htc Hfull.
  inversion Hr as [? ? ? ? nd Ha Hlf Hkc Hlk Hlv Hlc Hks Hvs Hcs Hkids];
    subst.
  inversion Hwf as [|? ? ? ? Hle Hts Hndk Hsub Hlo Hhi]; subst.
  assert (Hidx : idx < length ts) by (by eapply lookup_lt_Some).
  pose proof (repr_child _ _ _ _ _ _ _ Hr Htc) as Hrc.
  pose proof (wf_child _ _ _ _ _ _ _ Hwf Htc) as Hwfc.
  destruct (NoDup_addrs_child _ _ _ _ _ _ Hnd Htc) as [Hndc Hac].
  pose proof (taddr_in_addrs tc) as Hcin.
  assert (Hne : a ≠ taddr tc) by (by intros ->).
  assert (Hco : (taddr tc < arenaOffset st)%N).
  { apply Hlt. by eapply addrs_child. }
  assert (Hao : (a < arenaOffset st)%N).
  { apply Hlt. apply list_elem_of_here. }
  assert (Hcp : child nd !! idx = Some (Some (taddr tc))).
  { rewrite (take_eq_lookup _ _ _ _ Hcs) by lia.
    by rewrite list_lookup_fmap, Htc. }
  inversion Hrc as [c lfc esc tsc f Hc Hlfc Hkcc Hlkc Hlvc Hlcc Hksc Hvsc Hcsc Hkidsc];
    subst. simpl in Hfull, Hcin, Hne, Hco, Hcp.
  destruct (splitChild_store st a c idx nd f)
    as (h' & m & w & ks & vs & cs & Hsplit & Hm & Hw & Hok & Hov & Hoc
        & Ha' & Hc' & Ho' & Hfr'); try done; try lia.
  assert (Hmw : esc !! mid = Some (m, w)).
  { apply lookup_fst_snd.
    - by rewrite <- (take_eq_lookup _ _ _ _ Hksc) by lia.
    - by rewrite <- (take_eq_lookup _ _ _ _ Hvsc) by lia. }
  assert (Hfrc : ∀ x, x ∈ addrs (Tr c (leaf f) esc tsc) → x ≠ c →
                      h' !! x = arena st !! x).
  { intros x Hx Hxc. apply Hfr'; [|done|].
    - intros ->. done.
    - intros ->. assert (arenaOffset st < arenaOffset st)%N; [|lia].
      apply Hlt. by eapply addrs_child. }
  exists (mkTree (root st) (arenaOffset st + sizeofNode) h'), (m, w).
  split_and!; [done|done|done|done| |].
  - cbn [arena]. econstructor; [exact Ha'|simpl..|].
    + done.
    + rewrite length_ins. lia.
    + by rewrite (proj1 Hok).
    + by rewrite (proj1 Hov).
    + by rewrite (proj1 Hoc).
    + rewrite length_ins, fmap_ins, <- Hks, <- Hkc.
      replace (keyCount nd + 1) with (S (keyCount nd)) in * by lia.
      apply opened_ins; [lia|lia|done].
    + rewrite length_ins, fmap_ins, <- Hvs, <- Hkc.
      replace (keyCount nd + 1) with (S (keyCount nd)) in * by lia.
      apply opened_ins; [lia|lia|done].
    + rewrite length_ins, length_insert, fmap_ins, list_fmap_insert.
      simpl. rewrite (list_insert_id _ idx (Some c))
        by (by rewrite list_lookup_fmap, Htc).
      rewrite <- Hcs, Hts. unfold MAX_CHILD in *.
      replace (keyCount nd + 1) with (S (length es)) in * by lia.
      apply opened_ins; [lia|lia|done].
    + apply Forall_forall. intros t Ht.
      apply list_elem_of_lookup in Ht as [i Hi].
      rewrite lookup_split_kids in Hi by done.
      assert (Hsib : ∀ j, j ≠ idx → ts !! j = Some t → repr h' t).
      { intros j Hj Htj. apply repr_frame with (arena st).
        - exact (repr_child _ _ _ _ _ _ _ Hr Htj).
        - intros x Hx. apply Hfr'.
          + intros ->. by destruct (NoDup_addrs_child _ _ _ _ _ _ Hnd Htj).
          + intros ->. simpl in Hnd. apply NoDup_cons in Hnd as [_ Hnd].
            by apply (NoDup_bind_lookup _ _ _ _ _ _ c Hnd Hj Htj Htc).
          + intros ->. assert (arenaOffset st < arenaOffset st)%N; [|lia].
            apply Hlt. by eapply addrs_child. }
      repeat case_decide; simplify_eq.
      * apply (Hsib i); [lia|done].
      * by eapply repr_split_left.
      * by eapply repr_split_right.
      * apply (Hsib (i - 1)); [lia|done].
  - cbn [arena]. intros x Hx Hxo. apply Hfr'; [| |done].
    + intros ->. apply Hx. apply list_elem_of_here.
    + intros ->. apply Hx. by eapply addrs_child.
Qed.

(** ** Replacing one subtree of an internal node *)

Lemma wf_replace_child d a es ts i t t' k :
  wf (S d) (Tr a false es ts) → ts !! i = Some t → wf d t' →
  (∀ y, y ∈ tkeys t' → y = k ∨ y ∈ tkeys t) →
  (∀ x, es.*1 !! i = Some x → (k ≤ x)%Z) →
  (∀ j x, S j = i → es.*1 !! j = Some x → (x ≤ k)%Z) →
  wf (S d) (Tr a false es (<[i:=t']> ts)).
Proof.
  intros Hwf Hi Hwf' Hkeys Hup Hdown.
  inversion Hwf as [|? ? ? ? Hle Hts Hnd Hsub Hlo Hhi]; subst.
  assert (Hlt : i < length ts) by (by eapply lookup_lt_Some).
  constructor; try done.
  - by rewrite length_insert.
  - by apply Forall_insert.
  - intros j tj x. rewrite lookup_wr by done. case_decide.
    + intros [= <-] Hx. subst j. apply Forall_forall. intros y Hy.
      destruct (Hkeys y Hy) as [->|Hy']; [by apply Hup|].
      pose proof (Hlo i t x Hi Hx) as Hall. rewrite Forall_forall in Hall.
      by apply Hall.
    + apply Hlo.
  - intros j tj x. rewrite lookup_wr by done. case_decide.
    + intros [= <-] Hx. apply Forall_forall. intros y Hy.
      destruct (Hkeys y Hy) as [->|Hy']; [by apply (Hdown j)|].
      subst i. pose proof (Hhi j t x Hi Hx) as Hall.
      rewrite Forall_forall in Hall. by apply Hall.
    + apply Hhi.
Qed.

Lemma NoDup_replace_mid (a : N) (L R T T' : list N) :
  NoDup (a :: L ++ T ++ R) → NoDup T' →
  (∀ x, x ∈ T' → x ∈ T ∨ x ∉ a :: L ++ T ++ R) →
  NoDup (a :: L ++ T' ++ R).
Proof.
  intros Hnd Hnd' Hsub.
  apply NoDup_cons in Hnd as [Ha Hnd].
  apply NoDup_app in Hnd as (HL & HLd & Hnd).
  apply NoDup_app in Hnd as (Ht & Htd & HR).
  rewrite !elem_of_app in Ha.
  assert (Hfresh : ∀ x, x ∈ T' → x ≠ a ∧ (x ∉ L) ∧ (x ∉ R)).
  { intros x Hx. destruct (Hsub x Hx) as [Hin|Hout].
    - split_and!.
      + intros ->. tauto.
      + intros HxL. apply (HLd x HxL). apply elem_of_app. by left.
      + by apply Htd.
    - rewrite elem_of_cons, !elem_of_app in Hout. split_and!; tauto. }
  apply NoDup_cons. split.
  - rewrite !elem_of_app. intros [?|[Hin|?]]; [tauto| |tauto].
    by destruct (Hfresh a Hin).
  - apply NoDup_app. split_and!; [done| |].
    + intros x HxL [Hx|Hx]%elem_of_app.
      * by destruct (Hfresh x Hx) as (_ & ? & _).
      * apply (HLd x HxL). apply elem_of_app. by right.
    + apply NoDup_app. split_and!; [done| |done].
      intros x Hx. by destruct (Hfresh x Hx) as (_ & _ & ?).
Qed.

Lemma NoDup_replace_child a lf es es' ts i t t' :
  NoDup (addrs (Tr a lf es ts)) → ts !! i = Some t → NoDup (addrs t') →
  (∀ x, x ∈ addrs t' → x ∈ addrs t ∨ x ∉ addrs (Tr a lf es ts)) →
  NoDup (addrs (Tr a lf es' (<[i:=t']> ts))).
Proof.
  intros Hnd Hi Hnd' Hsub.
  assert (Hlt : i < length ts) by (by eapply lookup_lt_Some).
  simpl in *. rewrite insert_take_drop by done.
  rewrite <- (take_drop_middle ts i t Hi) in Hnd, Hsub.
  rewrite bind_app, bind_cons in Hnd, Hsub.
  rewrite bind_app, bind_cons. by eapply NoDup_replace_mid.
Qed.

Lemma elem_of_bind_insert {A B} (f : A → list B) (ts : list A) i t t' x :
  ts !! i = Some t →
  x ∈ <[i:=t']> ts ≫= f ↔
  x ∈ f t' ∨ ∃ j tj, j ≠ i ∧ ts !! j = Some tj ∧ x ∈ f tj.
Proof.
  intros Hi. assert (Hlt : i < length ts) by (by eapply lookup_lt_Some).
  rewrite list_elem_of_bind. split.
  - intros (y & Hx & Hy). apply list_elem_of_lookup in Hy as [j Hj].
    rewrite lookup_wr in Hj by done. case_decide; simplify_eq; [by left|].
    right. by exists j, y.
  - intros [Hx|(j & tj & Hne & Hj & Hx)].
    + exists t'. split; [done|]. by apply list_elem_of_insert.
    + exists tj. split; [done|]. apply list_elem_of_lookup. exists j.
      rewrite lookup_wr by done. by case_decide.
Qed.

Lemma elem_of_bind_lookup {A B} (f : A → list B) (ts : list A) x :
  x ∈ ts ≫= f ↔ ∃ j tj, ts !! j = Some tj ∧ x ∈ f tj.
Proof.
  rewrite list_elem_of_bind. split.
  - intros (y & Hx & [j Hj]%list_elem_of_lookup). eauto.
  - intros (j & tj & Hj & Hx). exists tj. split; [done|].
    by eapply list_elem_of_lookup_2.
Qed.

Lemma entries_replace_child a lf es ts i t t' e0 :
  ts !! i = Some t →
  (∀ e, e ∈ entries t' ↔ e = e0 ∨ e ∈ entries t) →
  ∀ e, e ∈ entries (Tr a lf es (<[i:=t']> ts)) ↔
       e = e0 ∨ e ∈ entries (Tr a lf es ts).
Proof.
  intros Hi Ht e. simpl. rewrite !elem_of_app.
  rewrite (elem_of_bind_insert _ _ _ _ _ _ Hi), elem_of_bind_lookup, Ht.
  split.
  - intros [?|[[?|?]|(j & tj & ? & ? & ?)]]; eauto 10.
  - intros [?|[?|(j & tj & Hj & ?)]]; eauto.
    destruct (decide (j = i)) as [->|]; simplify_eq; eauto 10.
Qed.

Lemma addrs_replace_child a lf es ts i t t' x :
  ts !! i = Some t →
  x ∈ addrs (Tr a lf es (<[i:=t']> ts)) →
  x ∈ addrs t' ∨ x ∈ addrs (Tr a lf es ts).
Proof.
  intros Hi. simpl. rewrite !elem_of_cons.
  rewrite (elem_of_bind_insert _ _ _ _ _ _ Hi), elem_of_bind_lookup.
  intros [?|[?|(j & tj & ? & ? & ?)]]; eauto 10.
Qed.

Lemma repr_replace_child h h' a es ts i t t' :
  repr h (Tr a false es ts) → ts !! i = Some t →
  repr h' t' → taddr t' = taddr t →
  (∀ x, x ∈ addrs (Tr a false es ts) → x ∉ addrs t → h' !! x = h !! x) →
  NoDup (addrs (Tr a false es ts)) →
  repr h' (Tr a false es (<[i:=t']> ts)).
Proof.
  intros Hr Hi Hr' Haddr Hfr Hnd.
  assert (Hlt : i < length ts) by (by eapply lookup_lt_Some).
  destruct (NoDup_addrs_child _ _ _ _ _ _ Hnd Hi) as [_ Hat].
  inversion Hr as [? ? ? ? nd Ha Hlf Hkc Hlk Hlv Hlc Hks Hvs Hcs Hkids];
    subst.
  econstructor; try done.
  - rewrite Hfr; [done|apply list_elem_of_here|done].
  - rewrite length_insert, list_fmap_insert, Haddr.
    rewrite list_insert_id; [done|]. by rewrite list_lookup_fmap, Hi.
  - apply Forall_forall. intros tj Htj.
    apply list_elem_of_lookup in Htj as [j Hj].
    rewrite lookup_wr in Hj by done. case_decide; simplify_eq; [done|].
    apply repr_frame with h; [exact (repr_child _ _ _ _ _ _ _ Hr Hj)|].
    intros x Hx. apply Hfr; [by eapply addrs_child|].
    simpl in Hnd. apply NoDup_cons in Hnd as [_ Hnd].
    by apply (NoDup_bind_lookup _ _ _ _ _ _ x Hnd H Hj Hi).
Qed.

Lemma split_parent_addrs a lf es es' ts idx tc o :
  ts !! idx = Some tc →
  addrs (Tr a lf es' (ins (idx + 1) (split_right o tc)
                          (<[idx:=split_left tc]> ts)))
  ≡ₚ o :: addrs (Tr a lf es ts).
Proof.
  intros Hi. assert (Hlt : idx < length ts) by (by eapply lookup_lt_Some).
  simpl. rewrite ins_perm, bind_cons, insert_take_drop by done.
  rewrite <- (take_drop_middle ts idx tc Hi) at 3.
  rewrite !bind_app, !bind_cons.
  set (L := take idx ts ≫= addrs). set (R := drop (S idx) ts ≫= addrs).
  rewrite Permutation_swap. constructor.
  rewrite (Permutation_app_comm (addrs (split_right o tc))).
  rewrite <- !app_assoc.
  rewrite (Permutation_app_comm R).
  rewrite (app_assoc (addrs (split_left tc))), split_addrs.
  by rewrite <- app_comm_cons, <- Permutation_middle.
Qed.

Lemma split_parent_entries a lf es ts idx tc o m e :
  ts !! idx = Some tc → tents tc !! mid = Some m →
  e ∈ entries (Tr a lf (ins idx m es)
                  (ins (idx + 1) (split_right o tc)
                       (<[idx:=split_left tc]> ts)))
  ↔ e ∈ entries (Tr a lf es ts).
Proof.
  intros Hi Hm. simpl.
  rewrite !ins_perm, bind_cons, !elem_of_app, elem_of_cons.
  rewrite (elem_of_bind_insert _ _ _ _ _ _ Hi), elem_of_bind_lookup.
  assert (Hc : e ∈ entries tc ↔
               e = m ∨ e ∈ entries (split_left tc)
               ∨ e ∈ entries (split_right o tc)).
  { rewrite (split_entries o tc m Hm), elem_of_cons, elem_of_app. done. }
  split.
  - intros [[->|?]|[?|[?|(j & tj & ? & ? & ?)]]]; eauto 10.
    + right. exists idx, tc. split; [done|]. apply Hc. by left.
    + right. exists idx, tc. split; [done|]. apply Hc. eauto.
    + right. exists idx, tc. split; [done|]. apply Hc. eauto.
  - intros [?|(j & tj & Hj & He)]; [eauto|].
    destruct (decide (j = idx)) as [->|]; [|eauto 10].
    simplify_eq. apply Hc in He as [?|[?|?]]; eauto 10.
Qed.

(** ** insertNonFull on a represented tree *)

Lemma tkeys_entries t y : y ∈ tkeys t ↔ ∃ v, (y, v) ∈ entries t.
Proof.
  unfold tkeys. rewrite list_elem_of_fmap. split.
  - intros ([k v] & -> & ?). by exists v.
  - intros [v ?]. by exists (y, v).
Qed.

Lemma insert_into_child d fuel k v :
  (∀ t st, ins_pre st t d → length (tents t) < MAX_KEYS →
           ∃ st' t', insertNonFull fuel (Some (taddr t)) k v st
                     = Some (tt, st') ∧ ins_post st st' t t' d k v ∧
                     tins k v (arenaOffset st) t (arenaOffset st') t') →
  ∀ st a es ts q tq,
    ins_pre st (Tr a false es ts) (S d) →
    ts !! q = Some tq → length (tents tq) < MAX_KEYS →
    (∀ x, es.*1 !! q = Some x → (k ≤ x)%Z) →
    (∀ j x, S j = q → es.*1 !! j = Some x → (x ≤ k)%Z) →
    ∃ st' tq',
      insertNonFull fuel (Some (taddr tq)) k v st = Some (tt, st') ∧
      ins_post st st' (Tr a false es ts) (Tr a false es (<[q:=tq']> ts))
               (S d) k v ∧
      tins k v (arenaOffset st) tq (arenaOffset st') tq'.
Proof.
  intros IH st a es ts q tq (Hr & Hwf & Hnd & Hlt) Hq Hnf Hup Hdown.
  destruct (NoDup_addrs_child _ _ _ _ _ _ Hnd Hq) as [Hndq Haq].
  destruct (IH tq st) as (st' & tq' & Hrun & (Hroot & Hoff & Haddr & Hr'
    & Hwf' & Hnd' & Hsub & Hent & Hfr & _) & Hshape); [|done|].
  { split_and!; [by eapply repr_child|by eapply wf_child|done|].
    intros x Hx. apply Hlt. by eapply addrs_child. }
  exists st', tq'. split; [done|]. split; [|done].
  split_and!; [done|done|done|..].
  - eapply repr_replace_child; try done.
    intros x Hx Hxq. apply Hfr; [done|by apply Hlt].
  - eapply wf_replace_child; try done.
    intros y [w Hy]%tkeys_entries. apply Hent in Hy as [[= -> _]|Hy];
      [by left|right]. apply tkeys_entries. by exists w.
  - eapply NoDup_replace_child; try done.
    intros x Hx. destruct (Hsub x Hx) as [?|Hfresh]; [by left|right].
    intros Hin. apply Hlt in Hin. lia.
  - intros x Hx. eapply addrs_replace_child in Hx as [Hx|Hx]; [|by left|done].
    destruct (Hsub x Hx) as [?|?]; [left|by right]. by eapply addrs_child.
  - by apply entries_replace_child with tq.
  - intros x Hx Hxo. apply Hfr; [|done]. intros Hin. apply Hx.
    by eapply addrs_child.
  - simpl. intros t0 Ht0. assert (q < length ts) by (by eapply lookup_lt_Some).
    rewrite lookup_wr by done. case_decide; simplify_eq; eauto.
Qed.

Lemma insertNonFull_leaf fuel st a es k v :
  ins_pre st (Tr a true es []) 1 → length es < MAX_KEYS →
  ∃ st' t', insertNonFull (S fuel) (Some a) k v st = Some (tt, st') ∧
            ins_post st st' (Tr a true es []) t' 1 k v ∧
            tins k v (arenaOffset st) (Tr a true es []) (arenaOffset st') t'.
Proof.
  intros (Hr & Hwf & Hnd & Hlt) Hnf.
  inversion Hr as [? ? ? ? nd Ha Hlf Hkc Hlk Hlv Hlc Hks Hvs Hcs Hkids];
    subst.
  inversion Hwf as [? ? Hle Hndk|]; subst.
  destruct (insert_leaf_spec k v nd)
    as (j & ks & vs & Hins & Hj & Hgt & Hlek & Hok & Hov); [lia|done|done|].
  cbn [insertNonFull]. step (load_Some _ _ _ Ha).
  replace (leaf nd) with true by done. cbv iota.
  rewrite (update_Some _ _ _ _ _ Ha Hins).
  eexists _, (Tr a true (ins j (k, v) es) []). split; [reflexivity|].
  assert (Hkey : ∀ i, i < length es → keys nd !! i = es.*1 !! i).
  { intros i Hi. by rewrite (take_eq_lookup _ _ _ _ Hks). }
  split; [|cbn [arenaOffset]; constructor; lia].
  split_and!; cbn [root arenaOffset arena]; try done.
  - econstructor; [apply lookup_insert_eq|simpl..|done].
    + done.
    + rewrite length_ins. lia.
    + by rewrite (proj1 Hok).
    + by rewrite (proj1 Hov).
    + done.
    + rewrite length_ins, fmap_ins, <- Hks, <- Hkc.
      apply opened_ins; [lia|lia|done].
    + rewrite length_ins, fmap_ins, <- Hvs, <- Hkc.
      apply opened_ins; [lia|lia|done].
    + done.
  - constructor; [rewrite length_ins; lia|].
    rewrite fmap_ins. cbn [fst]. apply nondecreasing_ins;
      [done|rewrite length_fmap; lia|..].
    + intros i x Hi Hx. destruct j as [|j]; [lia|].
      destruct (lookup_lt_is_Some_2 (es.*1) j) as [y Hy].
      { rewrite length_fmap. lia. }
      assert (y ≤ k)%Z.
      { apply Hlek; [lia|]. simpl. rewrite Nat.sub_0_r.
        rewrite Hkey by lia. done. }
      assert (x ≤ y)%Z; [|lia]. apply (Hndk i j); [lia|done..].
    + intros i x Hi Hx. assert (k < x)%Z; [|lia].
      assert (i < length es).
      { apply lookup_lt_Some in Hx. by rewrite length_fmap in Hx. }
      apply (Hgt i); [lia|]. by rewrite Hkey.
  - intros x Hx. by left.
  - intros e. simpl. rewrite !app_nil_r, ins_perm. apply elem_of_cons.
  - intros x Hx Hxo. apply lookup_insert_ne. intros ->. apply Hx.
    apply list_elem_of_here.
Qed.

Lemma repr_full h t nd :
  repr h t → h !! taddr t = Some nd →
  full nd = bool_decide (length (tents t) = MAX_KEYS).
Proof.
  intros Hr Hnd. inversion Hr; subst. simpl in *.
  assert (nd = nd0) by congruence. subst. unfold full.
  apply bool_decide_ext. lia.
Qed.

Lemma insertNonFull_internal d fuel k v :
  (∀ t st, ins_pre st t d → length (tents t) < MAX_KEYS →
           ∃ st' t', insertNonFull fuel (Some (taddr t)) k v st
                     = Some (tt, st') ∧ ins_post st st' t t' d k v ∧
                     tins k v (arenaOffset st) t (arenaOffset st') t') →
  ∀ st a es ts,
    ins_pre st (Tr a false es ts) (S d) → length es < MAX_KEYS →
    ∃ st' t', insertNonFull (S fuel) (Some a) k v st = Some (tt, st') ∧
              ins_post st st' (Tr a false es ts) t' (S d) k v ∧
              tins k v (arenaOffset st) (Tr a false es ts)
                   (arenaOffset st') t'.
Proof.
  pose proof mid_eq as Hmid. pose proof MAX_KEYS_eq as HMAX.
  intros IH st a es ts Hpre Hnf.
  destruct Hpre as (Hr & Hwf & Hnd & Hlt).
  inversion Hr as [? ? ? ? nd Ha Hlf Hkc Hlk Hlv Hlc Hks Hvs Hcs Hkids];
    subst.
  inversion Hwf as [|? ? ? ? Hle Hts Hndk Hsub Hlo Hhi]; subst.
  destruct (findPos_spec nd k) as (pos & Hfp & Hpn & Hplt & Hpge); [lia|].
  assert (Hkey : ∀ i, i < length es → keys nd !! i = es.*1 !! i).
  { intros i Hi. by rewrite (take_eq_lookup _ _ _ _ Hks). }
  destruct (lookup_lt_is_Some_2 ts pos) as [tp Htp]; [lia|].
  assert (Hcp : child nd !! pos = Some (Some (taddr tp))).
  { rewrite (take_eq_lookup _ _ _ _ Hcs) by lia.
    by rewrite list_lookup_fmap, Htp. }
  pose proof (repr_child _ _ _ _ _ _ _ Hr Htp) as Hrp.
  assert (∃ cn, arena st !! taddr tp = Some cn) as [cn Hcn].
  { inversion Hrp; subst; simpl; eauto. }
  cbn [insertNonFull]. step (load_Some _ _ _ Ha).
  replace (leaf nd) with false by done. cbv iota.
  step (lift_Some _ _ st Hfp). step (lift_Some _ _ st Hcp).
  step (load_Some _ _ _ Hcn).
  rewrite (repr_full _ _ _ Hrp Hcn).
  destruct (decide (length (tents tp) = MAX_KEYS)) as [Hfull|Hnfull].
  - (* the child is full: split it, then descend left or right *)
    rewrite bool_decide_eq_true_2 by done.
    destruct (splitChild_repr st a es ts pos tp d)
      as (st1 & m & Hsplit & Hroot1 & Hoff1 & Hm & Hr1 & Hfr1); try done.
    set (tl := split_left tp) in *.
    set (tr := split_right (arenaOffset st) tp) in *.
    set (es1 := ins pos m es) in *.
    set (ts1 := ins (pos + 1) tr (<[pos:=tl]> ts)) in *.
    assert (Hwf1 : wf (S d) (Tr a false es1 ts1))
      by (by apply wf_split_parent).
    pose proof (split_parent_addrs a false es es1 ts pos tp
                  (arenaOffset st) Htp) as Hperm.
    fold tr tl ts1 in Hperm.
    assert (Hfresh : arenaOffset st ∉ addrs (Tr a false es ts)).
    { intros Hin. apply Hlt in Hin. lia. }
    assert (Hnd1 : NoDup (addrs (Tr a false es1 ts1))).
    { rewrite Hperm. by apply NoDup_cons. }
    assert (Hlt1 : ∀ x, x ∈ addrs (Tr a false es1 ts1) →
                        (x < arenaOffset st1)%N).
    { intros x. rewrite Hperm, elem_of_cons, Hoff1.
      intros [->|Hx%Hlt]; lia. }
    inversion Hr1 as [? ? ? ? nd1 Ha1 _ Hkc1 Hlk1 _ _ Hks1 _ Hcs1 _]; subst.
    assert (Hlen1 : length es1 = S (length es)) by apply length_ins.
    assert (Hk1 : keys nd1 !! pos = Some m.1).
    { rewrite (take_eq_lookup _ _ _ _ Hks1) by lia. unfold es1.
      rewrite fmap_ins, lookup_ins by (rewrite length_fmap; lia).
      rewrite decide_False by lia. by rewrite decide_True. }
    set (pos' := if decide (m.1 < k)%Z then pos + 1 else pos).
    erewrite (bind_Some _ _ _ pos' st1).
    2:{ step Hsplit. step (load_Some _ _ _ Ha1).
        step (lift_Some _ _ st1 Hk1). reflexivity. }
    step (load_Some _ _ _ Ha1).
    assert (Hq : ∃ tq, ts1 !! pos' = Some tq ∧ length (tents tq) < MAX_KEYS).
    { unfold ts1, tr, tl, pos'. rewrite lookup_split_kids by lia.
      destruct (decide (m.1 < k)%Z).
      - eexists. repeat case_decide; try lia. split; [done|].
        destruct tp; simpl in *. rewrite length_drop. lia.
      - eexists. repeat case_decide; try lia. split; [done|].
        destruct tp; simpl in *. rewrite length_take. lia. }
    destruct Hq as (tq & Htq & Hnfq).
    assert (Hcq : child nd1 !! pos' = Some (Some (taddr tq))).
    { assert (pos' < length ts1) by (by eapply lookup_lt_Some).
      rewrite (take_eq_lookup _ _ _ _ Hcs1) by done.
      by rewrite list_lookup_fmap, Htq. }
    step (lift_Some _ _ st1 Hcq).
    destruct (insert_into_child d fuel k v IH st1 a es1 ts1 pos' tq)
      as (st2 & tq' & Hrun & (Hroot2 & Hoff2 & Haddr2 & Hr2 & Hwf2 & Hnd2
          & Hsub2 & Hent2 & Hfr2 & Hkid2) & Hshape); try done.
    { unfold es1, pos'. intros x. rewrite fmap_ins.
      rewrite lookup_ins by (rewrite length_fmap; lia).
      repeat case_decide; try lia.
      - replace (pos + 1 - 1) with pos by lia. intros Hx.
        assert (pos < length es).
        { apply lookup_lt_Some in Hx. by rewrite length_fmap in Hx. }
        apply Hpge; [lia|]. by rewrite Hkey.
      - intros [= <-]. lia. }
    { unfold es1, pos'. intros j x Hj. rewrite fmap_ins.
      rewrite lookup_ins by (rewrite length_fmap; lia).
      repeat case_decide; try lia.
      - intros [= <-]. lia.
      - intros Hx. assert (x < k)%Z; [|lia]. apply (Hplt j); [lia|].
        rewrite Hkey; [done|lia]. }
    exists st2, (Tr a false es1 (<[pos':=tq']> ts1)). split; [done|].
    split.
    2:{ rewrite Hoff1 in Hshape. by eapply tins_split. }
    split_and!; try done.
    + congruence.
    + lia.
    + intros x Hx. destruct (Hsub2 x Hx) as [Hin|Hin].
      * rewrite Hperm in Hin. apply elem_of_cons in Hin as [->|Hin];
          [right; lia|by left].
      * right. lia.
    + intros e. rewrite Hent2. unfold es1, ts1, tr, tl.
      by rewrite (split_parent_entries _ _ _ _ _ _ _ _ _ Htp Hm).
    + intros x Hx Hxo. rewrite Hfr2, Hfr1; [done|done|lia| |lia].
      rewrite Hperm. intros [->|Hin]%elem_of_cons; [lia|done].
    + cbn [tkids] in *. intros t0 Ht0.
      assert (∃ t1, ts1 !! 0 = Some t1 ∧ taddr t1 = taddr t0)
        as (t1 & Ht1 & <-).
      { unfold ts1, tr, tl. rewrite lookup_split_kids by lia.
        repeat case_decide; try lia; [by eauto|].
        eexists. split; [done|]. replace pos with 0 in * by lia.
        assert (t0 = tp) as -> by congruence. by destruct tp. }
      by apply Hkid2.
  - (* the child has room: descend into it *)
    rewrite bool_decide_eq_false_2 by done. rewrite ret_bind.
    step (load_Some _ _ _ Ha). step (lift_Some _ _ st Hcp).
    destruct (insert_into_child d fuel k v IH st a es ts pos tp)
      as (st' & tq' & Hrun & Hpost & Hshape); try done.
    + assert (length (tents tp) ≤ MAX_KEYS); [|lia].
      pose proof (wf_child _ _ _ _ _ _ _ Hwf Htp) as Hwfp.
      inversion Hwfp; subst; simpl; done.
    + intros x Hx.
      assert (pos < length es).
      { apply lookup_lt_Some in Hx. by rewrite length_fmap in Hx. }
      apply Hpge; [lia|]. by rewrite Hkey.
    + intros j x <- Hx. assert (x < k)%Z; [|lia]. apply (Hplt j); [lia|].
      rewrite Hkey; [done|lia].
    + exists st', (Tr a false es (<[pos:=tq']> ts)).
      split_and!; [done|done|]. by eapply tins_child.
Qed.

Lemma insertNonFull_spec d :
  ∀ fuel t st k v,
    ins_pre st t d → length (tents t) < MAX_KEYS → d ≤ fuel →
    ∃ st' t', insertNonFull fuel (Some (taddr t)) k v st = Some (tt, st') ∧
              ins_post st st' t t' d k v ∧
              tins k v (arenaOffset st) t (arenaOffset st') t'.
Proof.
  induction d as [|d IH]; intros fuel t st k v Hpre Hnf Hfuel.
  { destruct Hpre as (_ & Hwf & _). inversion Hwf. }
  destruct fuel as [|fuel]; [lia|].
  destruct t as [a lf es ts]. simpl in Hnf.
  assert (Hwf : wf (S d) (Tr a lf es ts)) by apply Hpre.
  inversion Hwf; subst.
  - by apply insertNonFull_leaf.
  - apply insertNonFull_internal; [|done..].
    intros t st0 Hpre0 Hnf0. apply IH; [done|done|lia].
Qed.

(** ** What an insertion does to the entries, the occupancy and the nodes *)

Lemma fresh_S o n : fresh o (S n) = o :: fresh (o + sizeofNode) n.
Proof.
  unfold fresh. simpl. f_equal; [f_equal; lia|].
  rewrite <- fmap_S_seq, <- list_fmap_compose. apply list_fmap_ext.
  intros _ i _. simpl. lia.
Qed.

Lemma bind_insert_perm {A B} (f : A → list B) (ts : list A) i t t' X :
  ts !! i = Some t → f t' ≡ₚ f t ++ X →
  <[i:=t']> ts ≫= f ≡ₚ (ts ≫= f) ++ X.
Proof.
  intros Hi Hf. assert (Hlt : i < length ts) by (by eapply lookup_lt_Some).
  rewrite insert_take_drop by done.
  rewrite <- (take_drop_middle ts i t Hi) at 3.
  rewrite !bind_app, !bind_cons, Hf.
  rewrite <- !app_assoc. f_equiv. f_equiv. apply Permutation_app_comm.
Qed.

Lemma split_parent_entries_perm a lf es ts idx tc o m :
  ts !! idx = Some tc → tents tc !! mid = Some m →
  entries (Tr a lf (ins idx m es)
              (ins (idx + 1) (split_right o tc) (<[idx:=split_left tc]> ts)))
  ≡ₚ entries (Tr a lf es ts).
Proof.
  intros Hi Hm. assert (Hlt : idx < length ts) by (by eapply lookup_lt_Some).
  simpl. rewrite !ins_perm, bind_cons, insert_take_drop by done.
  rewrite <- (take_drop_middle ts idx tc Hi) at 3.
  rewrite !bind_app, !bind_cons. rewrite (split_entries o tc m Hm).
  set (L := take idx ts ≫= entries). set (R := drop (S idx) ts ≫= entries).
  set (El := entries (split_left tc)). set (Er := entries (split_right o tc)).
  solve_Permutation.
Qed.

Lemma tins_entries k v o t o' t' :
  tins k v o t o' t' → entries t' ≡ₚ (k, v) :: entries t.
Proof.
  induction 1 as [o a es j Hj|o o' a es ts q tq tq' Hq _ IH
                 |o o' a es ts pos tp m q tq tq' Hp Hfull Hm Hq _ IH].
  - simpl. by rewrite !app_nil_r, ins_perm.
  - simpl. rewrite (bind_insert_perm _ _ _ _ _ [(k, v)] Hq).
    + by rewrite app_assoc, <- Permutation_cons_append.
    + by rewrite IH, <- Permutation_cons_append.
  - rewrite <- (split_parent_entries_perm a false es ts pos tp o m Hp Hm).
    simpl. rewrite (bind_insert_perm _ _ _ _ _ [(k, v)] Hq).
    + by rewrite app_assoc, <- Permutation_cons_append.
    + by rewrite IH, <- Permutation_cons_append.
Qed.

Lemma tins_tents k v o t o' t' :
  tins k v o t o' t' → length (tents t) ≤ length (tents t').
Proof.
  destruct 1; simpl; rewrite ?length_ins; lia.
Qed.

Lemma tins_tleaf k v o t o' t' : tins k v o t o' t' → tleaf t' = tleaf t.
Proof. by destruct 1. Qed.

Lemma tins_addrs k v o t o' t' :
  tins k v o t o' t' →
  ∃ n, o' = (o + sizeofNode * N.of_nat n)%N ∧
       addrs t' ≡ₚ addrs t ++ fresh o n.
Proof.
  induction 1 as [o a es j Hj|o o' a es ts q tq tq' Hq _ IH
                 |o o' a es ts pos tp m q tq tq' Hp Hfull Hm Hq _ IH].
  - exists 0. split; [lia|]. simpl. by rewrite ?app_nil_r.
  - destruct IH as (n & -> & IH). exists n. split; [done|].
    simpl. by rewrite (bind_insert_perm _ _ _ _ _ _ Hq IH).
  - destruct IH as (n & -> & IH). exists (S n). split; [lia|].
    rewrite fresh_S, <- Permutation_middle, app_comm_cons.
    rewrite <- (split_parent_addrs a false es (ins pos m es) ts pos tp o Hp).
    simpl. by rewrite (bind_insert_perm _ _ _ _ _ _ Hq IH).
Qed.

Lemma occ_split_left t :
  occ t → length (tents t) = MAX_KEYS → occ (split_left t).
Proof.
  pose proof mid_eq as Hmid. pose proof MAX_KEYS_eq as HMAX.
  intros Hocc Hfull. inversion Hocc as [a lf es ts Hlen Hkids]; subst.
  simpl in *. constructor.
  - rewrite length_take. lia.
  - by apply Forall_take.
Qed.

Lemma occ_split_right o t :
  occ t → length (tents t) = MAX_KEYS → occ (split_right o t).
Proof.
  pose proof mid_eq as Hmid. pose proof MAX_KEYS_eq as HMAX.
  intros Hocc Hfull. inversion Hocc as [a lf es ts Hlen Hkids]; subst.
  simpl in *. constructor.
  - rewrite length_drop. lia.
  - by apply Forall_drop.
Qed.

Lemma occ_split_kids o pos tp ts :
  ts !! pos = Some tp → length (tents tp) = MAX_KEYS → Forall occ ts →
  Forall occ (ins (pos + 1) (split_right o tp) (<[pos:=split_left tp]> ts)).
Proof.
  intros Hp Hfull Hocc.
  assert (occ tp) by (by eapply Forall_lookup_1).
  unfold ins. apply Forall_app. split.
  - apply Forall_take, Forall_insert; [done|by apply occ_split_left].
  - constructor; [by apply occ_split_right|].
    apply Forall_drop, Forall_insert; [done|by apply occ_split_left].
Qed.

Lemma tins_occ k v o t o' t' :
  tins k v o t o' t' → Forall occ (tkids t) → Forall occ (tkids t').
Proof.
  induction 1 as [o a es j Hj|o o' a es ts q tq tq' Hq Hins IH
                 |o o' a es ts pos tp m q tq tq' Hp Hfull Hm Hq Hins IH];
    simpl; intros Hocc.
  - done.
  - assert (Hoq : occ tq) by (by eapply Forall_lookup_1).
    apply Forall_insert; [done|].
    pose proof (tins_tents _ _ _ _ _ _ Hins) as Hlen.
    inversion Hoq as [aq lfq esq tsq Hlq Hkq]; subst.
    destruct tq' as [aq' lfq' esq' tsq']. simpl in *.
    constructor; [lia|]. by apply IH.
  - pose proof (occ_split_kids o pos tp ts Hp Hfull Hocc) as Hocc1.
    assert (Hoq : occ tq) by (by eapply Forall_lookup_1).
    apply Forall_insert; [done|].
    pose proof (tins_tents _ _ _ _ _ _ Hins) as Hlen.
    inversion Hoq as [aq lfq esq tsq Hlq Hkq]; subst.
    destruct tq' as [aq' lfq' esq' tsq']. simpl in *.
    constructor; [lia|]. by apply IH.
Qed.

Lemma length_fresh o n : length (fresh o n) = n.
Proof. unfold fresh. by rewrite length_fmap, length_seq. Qed.

Lemma fresh_app o n m :
  fresh o (n + m) = fresh o n ++ fresh (o + sizeofNode * N.of_nat n) m.
Proof.
  revert o. induction n as [|n IH]; intros o.
  - simpl. f_equal. lia.
  - replace (S n + m) with (S (n + m)) by lia. rewrite !fresh_S, IH.
    simpl. do 3 f_equal. lia.
Qed.

Lemma tins_tight k v o t o' t' kvs :
  tins k v o t o' t' → Tight o t kvs → Tight o' t' (kvs ++ [(k, v)]).
Proof.
  intros Hins (Hent & Hocc & Hroot & Haddr & Ho).
  destruct (tins_addrs _ _ _ _ _ _ Hins) as (n & -> & Hperm).
  assert (Hlen : length (addrs t') = length (addrs t) + n).
  { by rewrite Hperm, length_app, length_fresh. }
  split_and!.
  - by rewrite (tins_entries _ _ _ _ _ _ Hins), Hent, Permutation_cons_append.
  - by eapply tins_occ.
  - rewrite (tins_tleaf _ _ _ _ _ _ Hins). intros Hlf.
    pose proof (tins_tents _ _ _ _ _ _ Hins). specialize (Hroot Hlf). lia.
  - rewrite Hlen, Hperm, fresh_app, <- Haddr, <- Ho. repeat f_equiv; lia.
  - rewrite Hlen, Ho. lia.
Qed.

(** ** insert, and runs of inserts from the empty tree *)

Lemma new_Inv :
  ∃ st, HFTBTree_new = Some st ∧ Inv st (Tr 0%N true [] []) 1 ∧
        arenaOffset st = sizeofNode.
Proof.
  eexists. split; [reflexivity|]. simpl. split_and!; try done.
  - split; [done|]. split_and!.
    + econstructor; [apply lookup_insert_eq|simpl..]; try done.
      * by rewrite length_replicate.
      * by rewrite length_replicate.
      * by rewrite length_replicate.
    + constructor; [simpl; lia|]. intros i j x y _ Hx. done.
    + simpl. apply NoDup_singleton.
    + simpl. intros x ->%list_elem_of_singleton. lia.
Qed.

Lemma tight_new_root o t kvs m :
  Tight o t kvs → length (tents t) = MAX_KEYS → tents t !! mid = Some m →
  Tight (o + sizeofNode + sizeofNode)
        (Tr o false (ins 0 m [])
            (ins (0 + 1) (split_right (o + sizeofNode) t)
                 (<[0:=split_left t]> [t]))) kvs.
Proof.
  pose proof MAX_KEYS_eq as HMAX.
  intros (Hent & Hocc & Hroot & Haddr & Ho) Hfull Hm.
  set (t2 := Tr o false _ _).
  assert (Hperm : addrs t2 ≡ₚ (o + sizeofNode)%N :: o :: addrs t).
  { unfold t2. rewrite (split_parent_addrs o false [] _ [t] 0 t _ eq_refl).
    simpl. by rewrite app_nil_r. }
  assert (Hlen : length (addrs t2) = length (addrs t) + 2).
  { rewrite Hperm. simpl. lia. }
  split_and!.
  - unfold t2.
    rewrite (split_parent_entries_perm o false [] [t] 0 t _ m eq_refl Hm).
    simpl. by rewrite app_nil_r.
  - apply occ_split_kids; [done|done|]. constructor; [|done].
    destruct t as [a lf es ts]. simpl in *. constructor; [lia|done].
  - intros _. simpl. lia.
  - rewrite Hlen, Hperm, fresh_app, <- Haddr, <- Ho, !fresh_S.
    replace (0 + o)%N with o by lia. unfold fresh. simpl.
    rewrite <- !Permutation_middle, app_nil_r. apply perm_swap.
  - rewrite Hlen, Ho. lia.
Qed.

Lemma insert_shape fuel k v st t d :
  Inv st t d → d < fuel →
  ∃ st' t' d',
    insert fuel k v st = Some (tt, st') ∧ Inv st' t' d' ∧
    (∀ e, e ∈ entries t' ↔ e = (k, v) ∨ e ∈ entries t) ∧
    (arenaOffset st ≤ arenaOffset st')%N ∧
    (if decide (length (tents t) = MAX_KEYS)
     then d' = S d ∧ taddr t' = arenaOffset st ∧
          ∃ t0, tkids t' !! 0 = Some t0 ∧ taddr t0 = taddr t
     else d' = d ∧ taddr t' = taddr t) ∧
    (∀ kvs, Tight (arenaOffset st) t kvs →
            Tight (arenaOffset st') t' (kvs ++ [(k, v)])).
Proof.
  pose proof mid_eq as Hmid. pose proof MAX_KEYS_eq as HMAX.
  intros (Hroot & Hr & Hwf & Hnd & Hlt) Hfuel.
  assert (∃ rn, arena st !! taddr t = Some rn) as [rn Hrn].
  { inversion Hr; subst; simpl; eauto. }
  unfold insert.
  erewrite (bind_Some get_root) by reflexivity.
  rewrite Hroot. step (load_Some _ _ _ Hrn).
  rewrite (repr_full _ _ _ Hr Hrn).
  destruct (decide (length (tents t) = MAX_KEYS)) as [Hfull|Hnfull].
  - rewrite bool_decide_eq_true_2 by done.
    set (o := arenaOffset st).
    set (s0 := set_child (<[0:=Some (taddr t)]> (replicate MAX_CHILD None))
                         (Node_new false)).
    set (st1 := mkTree (Some o) (o + sizeofNode)
                       (<[o:=s0]> (<[o:=Node_new false]> (arena st)))).
    erewrite (bind_Some (allocNode false)) by reflexivity.
    erewrite (bind_Some (set_root _)) by reflexivity.
    erewrite (bind_Some (update _ _) _ _ tt st1).
    2:{ erewrite update_Some; [reflexivity|apply lookup_insert_eq|].
        cbn [child Node_new]. rewrite wr_Some; [done|].
        rewrite length_replicate. unfold MAX_CHILD. lia. }
    assert (Hot : o ∉ addrs t).
    { intros Hin. apply Hlt in Hin. subst o. lia. }
    assert (Hpre1 : ins_pre st1 (Tr o false [] [t]) (S d)).
    { split_and!.
      - econstructor; [apply lookup_insert_eq|simpl..]; try done.
        + by rewrite length_replicate.
        + by rewrite length_replicate.
        + by rewrite length_insert, length_replicate.
        + unfold MAX_CHILD. replace (MAX_KEYS + 1) with (S MAX_KEYS) by lia.
          done.
        + constructor; [|done]. apply repr_frame with (arena st); [done|].
          intros x Hx. cbn [arena st1].
          rewrite !lookup_insert_ne; [done|by intros ->..].
      - inversion Hwf; subst; simpl in Hfull; constructor; simpl; try lia;
          try done; repeat constructor; try done.
      - simpl. rewrite app_nil_r. by apply NoDup_cons.
      - simpl. rewrite app_nil_r. intros x [->|Hx%Hlt]%elem_of_cons;
          subst o; lia. }
    destruct Hpre1 as (Hr1 & Hwf1 & Hnd1 & Hlt1).
    destruct (splitChild_repr st1 o [] [t] 0 t d)
      as (st2 & m & Hsplit & Hroot2 & Hoff2 & Hm & Hr2 & Hfr2); try done.
    { simpl. lia. }
    step Hsplit.
    set (t2 := Tr o false (ins 0 m [])
                  (ins (0 + 1) (split_right (arenaOffset st1) t)
                       (<[0:=split_left t]> [t]))) in *.
    assert (Hperm : addrs t2 ≡ₚ arenaOffset st1 :: addrs (Tr o false [] [t]))
      by (by apply split_parent_addrs).
    assert (Hpre2 : ins_pre st2 t2 (S d)).
    { split_and!; [done| | |].
      - apply wf_split_parent; try done. simpl. lia.
      - rewrite Hperm. apply NoDup_cons. split; [|done].
        intros Hin%Hlt1. lia.
      - intros x. rewrite Hperm, elem_of_cons, Hoff2.
        intros [->|Hx%Hlt1]; lia. }
    destruct (insertNonFull_spec (S d) fuel t2 st2 k v)
      as (st3 & t3 & Hrun & (Hroot3 & Hoff3 & Haddr3 & Hr3 & Hwf3 & Hnd3
          & Hsub3 & Hent3 & Hfr3 & Hkid3) & Hshape); [done|simpl; lia|lia|].
    exists st3, t3, (S d). split; [exact Hrun|].
    split_and!.
    + split; [|split_and!; try done].
      * rewrite Hroot3, Hroot2, Haddr3. done.
      * intros x Hx. destruct (Hsub3 x Hx) as [Hin%(proj2 Hpre2)|?]; lia.
    + intros e. rewrite Hent3. unfold t2.
      rewrite (split_parent_entries o false [] [t] 0 t _ m e eq_refl Hm).
      simpl. by rewrite !app_nil_r.
    + rewrite Hoff2 in Hoff3. cbn [arenaOffset st1] in Hoff3. lia.
    + done.
    + by rewrite Haddr3.
    + destruct (Hkid3 (split_left t)) as (t0 & Ht0 & Haddr0); [done|].
      exists t0. split; [done|]. rewrite Haddr0. by destruct t.
    + intros kvs Htight. apply (tins_tight _ _ _ _ _ _ _ Hshape).
      rewrite Hoff2. cbn [arenaOffset st1]. by apply tight_new_root.
  - rewrite bool_decide_eq_false_2 by done.
    assert (length (tents t) < MAX_KEYS).
    { assert (length (tents t) ≤ MAX_KEYS); [|lia].
      inversion Hwf; subst; simpl; done. }
    destruct (insertNonFull_spec d fuel t st k v)
      as (st3 & t3 & Hrun & (Hroot3 & Hoff3 & Haddr3 & Hr3 & Hwf3 & Hnd3
          & Hsub3 & Hent3 & Hfr3 & Hkid3) & Hshape); [done|done|lia|].
    exists st3, t3, d. split; [exact Hrun|].
    split_and!; try done.
    + split; [congruence|split_and!; try done].
      intros x Hx. destruct (Hsub3 x Hx) as [Hin%Hlt|?]; lia.
    + intros kvs Htight. by apply (tins_tight _ _ _ _ _ _ _ Hshape).
Qed.

Lemma insert_spec fuel k v st t d :
  Inv st t d → d < fuel →
  ∃ st' t' d',
    insert fuel k v st = Some (tt, st') ∧ Inv st' t' d' ∧
    (∀ e, e ∈ entries t' ↔ e = (k, v) ∨ e ∈ entries t) ∧
    (arenaOffset st ≤ arenaOffset st')%N ∧
    if decide (length (tents t) = MAX_KEYS)
    then d' = S d ∧ taddr t' = arenaOffset st ∧
         ∃ t0, tkids t' !! 0 = Some t0 ∧ taddr t0 = taddr t
    else d' = d ∧ taddr t' = taddr t.
Proof.
  intros HInv Hfuel.
  destruct (insert_shape fuel k v st t d HInv Hfuel)
    as (st' & t' & d' & Hrun & HInv' & Hent & Hoff & Hd & _).
  by exists st', t', d'.
Qed.

Lemma insert_all_spec fuel kvs :
  ∀ st t d,
    Inv st t d → d + length kvs ≤ fuel →
    ∃ st' t' d',
      insert_all fuel kvs st = Some (tt, st') ∧ Inv st' t' d' ∧
      d' ≤ d + length kvs ∧
      (∀ e, e ∈ entries t' ↔ e ∈ kvs ∨ e ∈ entries t).
Proof.
  induction kvs as [|[k v] kvs IH]; intros st t d HInv Hfuel.
  - exists st, t, d. simpl. split_and!; [done|done|lia|].
    intros e. rewrite elem_of_nil. tauto.
  - simpl in Hfuel. cbn [insert_all].
    destruct (insert_spec fuel k v st t d)
      as (st1 & t1 & d1 & Hins & HInv1 & Hent1 & _ & Hd); [done|lia|].
    assert (d1 ≤ S d) by (case_decide; lia).
    destruct (IH st1 t1 d1) as (st2 & t2 & d2 & Hrun & HInv2 & Hd2 & Hent2);
      [done|lia|].
    exists st2, t2, d2. step Hins. split_and!; [done|done|simpl; lia|].
    intros e. rewrite Hent2, Hent1, elem_of_cons. tauto.
Qed.

Lemma insert_all_app fuel l1 l2 st :
  insert_all fuel (l1 ++ l2) st
  = (insert_all fuel l1;;; insert_all fuel l2) st.
Proof.
  revert st. induction l1 as [|[k v] l1 IH]; intros st; [reflexivity|].
  simpl. unfold bind at 1 2 3.
  destruct (insert fuel k v st) as [[[] st1]|]; [|done]. apply IH.
Qed.

Lemma run_spec fuel kvs :
  length kvs < fuel →
  ∃ st t d,
    run fuel kvs = Some st ∧ Inv st t d ∧ d ≤ S (length kvs) ∧
    (∀ e, e ∈ entries t ↔ e ∈ kvs).
Proof.
  intros Hfuel. destruct new_Inv as (st0 & Hnew & HInv0 & _).
  destruct (insert_all_spec fuel kvs st0 _ 1 HInv0)
    as (st & t & d & Hrun & HInv & Hd & Hent); [lia|].
  exists st, t, d. unfold run. rewrite Hnew. simpl. rewrite Hrun.
  split_and!; [done|done|lia|].
  intros e. rewrite Hent. simpl. rewrite elem_of_nil. tauto.
Qed.

Lemma search_spec fuel k st t d :
  Inv st t d → d ≤ fuel →
  ∃ r, search fuel k st = Some (r, st) ∧
       match r with
       | Some (a, i) =>
           ∃ nd v, arena st !! a = Some nd ∧ i < keyCount nd ∧
                   keys nd !! i = Some k ∧ vals nd !! i = Some v ∧
                   (k, v) ∈ entries t ∧ a ∈ addrs t
       | None => k ∉ tkeys t
       end.
Proof.
  intros (Hroot & Hr & Hwf & _) Hfuel. unfold search.
  erewrite (bind_Some get_root) by reflexivity. rewrite Hroot.
  by eapply search_loop_spec.
Qed.

(** ** Nodes reachable from the root *)

Lemma subtree_repr h n t s : subtree n t s → repr h t → repr h s.
Proof.
  induction 1 as [|a lf es ts i t n s Hi Hsub IH]; [done|].
  intros Hr. apply IH. by eapply repr_child.
Qed.

Lemma subtree_wf n t s d : subtree n t s → wf d t → wf (d - n) s ∧ n < d.
Proof.
  intros Hsub. revert d.
  induction Hsub as [|a lf es ts i t n s Hi Hsub IH]; intros d Hwf.
  - rewrite Nat.sub_0_r. split; [done|]. inversion Hwf; lia.
  - destruct d as [|d]; [inversion Hwf|].
    destruct (IH d) as [? ?]; [by eapply wf_child|].
    simpl. split; [done|lia].
Qed.


Lemma reach_subtree h t d n b :
  repr h t → wf d t → reach h (taddr t) n b →
  ∃ s, subtree n t s ∧ taddr s = b.
Proof.
  intros Hr Hwf Hreach. remember (taddr t) as a eqn:Ha.
  revert t d Hr Hwf Ha.
  induction Hreach as [a|a nd i c n b Hnd Hlf Hi Hc Hreach IH];
    intros t d Hr Hwf ->.
  - exists t. split; [constructor|done].
  - destruct t as [a lf es ts].
    inversion Hr as [? ? ? ? nd' Ha' Hlf' Hkc Hlk Hlv Hlc Hks Hvs Hcs Hkids];
      subst. simpl in Hnd. assert (nd' = nd) by congruence. subst nd'.
    inversion Hwf as [? ? Hle Hndk|d' ? ? ? Hle Hts Hndk Hsub Hlo Hhi];
      subst; [congruence|].
    destruct (lookup_lt_is_Some_2 ts i) as [ti Hti]; [lia|].
    assert (c = taddr ti) as ->.
    { rewrite (take_eq_lookup _ _ _ _ Hcs) in Hc by lia.
      rewrite list_lookup_fmap, Hti in Hc. simpl in Hc. congruence. }
    destruct (IH ti d') as (s & Hs & Hsb); [|by eapply wf_child|done|].
    { by eapply repr_child. }
    exists s. split; [|done]. by econstructor.
Qed.


Lemma Inv_reach st t d r n b :
  Inv st t d → root st = Some r → reach (arena st) r n b →
  ∃ s, subtree n t s ∧ taddr s = b ∧ repr (arena st) s ∧
       wf (d - n) s ∧ n < d.
Proof.
  intros (Hroot & Hr & Hwf & _) Hr' Hreach.
  assert (r = taddr t) as -> by congruence.
  destruct (reach_subtree _ _ _ _ _ Hr Hwf Hreach) as (s & Hs & Hb).
  destruct (subtree_wf _ _ _ _ Hs Hwf). exists s.
  split_and!; try done. by eapply subtree_repr.
Qed.


Lemma search_loop_pure fuel cur k st r st' :
  search_loop fuel cur k st = Some (r, st') → st' = st.
Proof.
  revert cur st. induction fuel as [|fuel IH]; intros cur st; [done|].
  cbn [search_loop]. unfold bind, load, lift, ret.
  destruct cur as [a|]; [|done].
  destruct (arena st !! a) as [nd|]; [|done].
  destruct (findPos nd k) as [pos|]; [|done].
  destruct (if decide (pos < keyCount nd)
            then x ← rd (keys nd) pos; Some (bool_decide (x = k))
            else Some false) as [[|]|]; [congruence| |done].
  destruct (leaf nd); [congruence|].
  destruct (rd (child nd) pos) as [c|]; [|done]. apply IH.
Qed.



(** ** The ordering invariant on the store *)



(** ** Runs of inserts keep the tree tight *)

Lemma new_Tight : Tight sizeofNode (Tr 0%N true [] []) [].
Proof.
  split_and!; simpl; try done.
  - unfold fresh. simpl.
    replace (0 + sizeofNode * N.of_nat 0)%N with 0%N by lia. done.
  - lia.
Qed.

Lemma insert_all_tight fuel kvs :
  ∀ st t d kvs0,
    Inv st t d → Tight (arenaOffset st) t kvs0 → d + length kvs ≤ fuel →
    ∃ st' t' d',
      insert_all fuel kvs st = Some (tt, st') ∧ Inv st' t' d' ∧
      d' ≤ d + length kvs ∧ Tight (arenaOffset st') t' (kvs0 ++ kvs).
Proof.
  induction kvs as [|[k v] kvs IH]; intros st t d kvs0 HInv Htight Hfuel.
  - exists st, t, d. simpl. rewrite app_nil_r. split_and!; [done|done|lia|done].
  - simpl in Hfuel. cbn [insert_all].
    destruct (insert_shape fuel k v st t d)
      as (st1 & t1 & d1 & Hins & HInv1 & _ & _ & Hd & Ht1); [done|lia|].
    assert (d1 ≤ S d) by (case_decide; lia).
    destruct (IH st1 t1 d1 (kvs0 ++ [(k, v)]))
      as (st2 & t2 & d2 & Hrun & HInv2 & Hd2 & Ht2); [done|by apply Ht1|lia|].
    exists st2, t2, d2. step Hins. split_and!; [done|done|simpl; lia|].
    by rewrite <- app_assoc in Ht2.
Qed.

Lemma run_tight fuel kvs :
  length kvs < fuel →
  ∃ st t d,
    run fuel kvs = Some st ∧ Inv st t d ∧ d ≤ S (length kvs) ∧
    Tight (arenaOffset st) t kvs.
Proof.
  intros Hfuel. destruct new_Inv as (st0 & Hnew & HInv0 & Hoff0).
  destruct (insert_all_tight fuel kvs st0 _ 1 [] HInv0)
    as (st & t & d & Hrun & HInv & Hd & Htight); [|lia|].
  { rewrite Hoff0. apply new_Tight. }
  exists st, t, d. unfold run. rewrite Hnew. simpl. rewrite Hrun.
  split_and!; [done|done|lia|done].
Qed.

(** ** The nodes of the tree are the nodes reachable from the root *)

Lemma subtree_addrs n t s : subtree n t s → taddr s ∈ addrs t.
Proof.
  induction 1 as [t|a lf es ts i t n s Hi Hsub IH]; [apply taddr_in_addrs|].
  by eapply addrs_child.
Qed.

Lemma addrs_reach h d t x :
  repr h t → wf d t → x ∈ addrs t → ∃ n, reach h (taddr t) n x.
Proof.
  revert t. induction d as [|d IH]; intros t Hr Hwf Hx; [inversion Hwf|].
  destruct t as [a lf es ts]. simpl in Hx.
  apply elem_of_cons in Hx as [->|Hx]; [exists 0; constructor|].
  apply elem_of_bind_lookup in Hx as (i & ti & Hi & Hx).
  inversion Hr as [? ? ? ? nd Ha Hlf Hkc Hlk Hlv Hlc Hks Hvs Hcs Hkids];
    subst.
  inversion Hwf as [? ? Hle Hndk|d' ? ? ? Hle Hts Hndk Hsub Hlo Hhi]; subst;
    [done|].
  destruct (IH ti) as [n Hn]; [by eapply repr_child|by eapply wf_child|done|].
  assert (i < length ts) by (by eapply lookup_lt_Some).
  exists (S n). eapply (reach_child _ a nd i (taddr ti)); [done|done|lia| |done].
  rewrite (take_eq_lookup _ _ _ _ Hcs) by done.
  by rewrite list_lookup_fmap, Hi.
Qed.

Lemma Inv_reach_addrs st t d r x :
  Inv st t d → root st = Some r →
  (∃ n, reach (arena st) r n x) ↔ x ∈ addrs t.
Proof.
  intros HInv Hroot. split.
  - intros [n Hreach].
    destruct (Inv_reach _ _ _ _ _ _ HInv Hroot Hreach) as (s & Hs & <- & _).
    by eapply subtree_addrs.
  - intros Hx. destruct HInv as (Hroot' & Hr & Hwf & _).
    assert (r = taddr t) as -> by congruence. by eapply addrs_reach.
Qed.

Lemma elem_of_fresh o n x :
  x ∈ fresh o n ↔ ∃ i, i < n ∧ x = (o + sizeofNode * N.of_nat i)%N.
Proof.
  unfold fresh. rewrite list_elem_of_fmap. split.
  - intros (i & -> & Hi). apply elem_of_seq in Hi. exists i. split; [lia|done].
  - intros (i & Hi & ->). exists i. split; [done|]. apply elem_of_seq. lia.
Qed.

(** ** Occupancy bounds the number of nodes and the depth *)



Lemma occ_nodes t :
  occ t → (ORDER - 1) * length (addrs t) ≤ length (entries t).
Proof.
  induction t as [a lf es ts IH] using tree_induction.
  intros Hocc. inversion Hocc as [? ? ? ? Hlen Hkids]; subst. simpl.
  rewrite length_app.
  assert (Hsum : (ORDER - 1) * length (ts ≫= addrs)
                 ≤ length (ts ≫= entries)).
  { clear Hocc Hlen. induction ts as [|t ts IHts]; [simpl; nia|].
    inversion IH; inversion Hkids; subst. rewrite !bind_cons, !length_app.
    specialize (IHts ltac:(done) ltac:(done)).
    assert ((ORDER - 1) * length (addrs t) ≤ length (entries t)) by auto.
    nia. }
  nia.
Qed.

Lemma occ_kids_nodes t :
  Forall occ (tkids t) →
  (ORDER - 1) * (length (addrs t) - 1) ≤ length (entries t).
Proof.
  destruct t as [a lf es ts]. simpl. intros Hkids.
  rewrite length_app, Nat.sub_0_r.
  assert ((ORDER - 1) * length (ts ≫= addrs) ≤ length (ts ≫= entries));
    [|nia].
  induction Hkids as [|t ts Ht _ IH]; [simpl; nia|].
  rewrite !bind_cons, !length_app. pose proof (occ_nodes t Ht). nia.
Qed.



(** ** In-order traversal *)










(** ** Runs that outgrow the arena *)

Lemma wf_entries_le d t :
  wf d t → length (entries t) ≤ MAX_KEYS * length (addrs t).
Proof.
  revert t. induction d as [|d IH]; intros t Hwf; [inversion Hwf|].
  inversion Hwf as [? ? Hle Hndk|d' ? ? ? Hle Hts Hndk Hsub Hlo Hhi]; subst.
  - simpl. rewrite length_app. simpl. nia.
  - cbn [entries addrs]. rewrite length_app, length_cons.
    assert (length (ts ≫= entries) ≤ MAX_KEYS * length (ts ≫= addrs));
      [|nia].
    clear Hts Hlo Hhi Hwf. induction Hsub as [|t ts Ht _ IHts]; [simpl; nia|].
    rewrite !bind_cons, !length_app. pose proof (IH t Ht). nia.
Qed.

(** In a run that ends beyond the offset [A], one insert starts at or
    below [A] and ends beyond it. *)
Lemma first_overrun fuel (A : N) st0 stf :
  ∀ suf pre st t d kvs0,
    insert_all fuel pre st0 = Some (tt, st) →
    Inv st t d → Tight (arenaOffset st) t kvs0 → d + length suf ≤ fuel →
    (arenaOffset st ≤ A)%N →
    insert_all fuel suf st = Some (tt, stf) → (A < arenaOffset stf)%N →
    ∃ pre' k v suf' st1 st2 t2 d2 kvs2,
      pre ++ suf = pre' ++ (k, v) :: suf' ∧
      insert_all fuel pre' st0 = Some (tt, st1) ∧ (arenaOffset st1 ≤ A)%N ∧
      insert fuel k v st1 = Some (tt, st2) ∧ (A < arenaOffset st2)%N ∧
      Inv st2 t2 d2 ∧ Tight (arenaOffset st2) t2 kvs2.
Proof.
  induction suf as [|[k v] suf IH];
    intros pre st t d kvs0 Hpre HInv Htight Hfuel Hle Hrun Hgt.
  - simpl in Hrun. injection Hrun as <-. lia.
  - simpl in Hfuel.
    destruct (insert_shape fuel k v st t d)
      as (st1 & t1 & d1 & Hins & HInv1 & _ & _ & Hd & Ht1); [done|lia|].
    assert (d1 ≤ S d) by (case_decide; lia).
    cbn [insert_all] in Hrun. rewrite (bind_Some _ _ _ _ _ Hins) in Hrun.
    destruct (decide (A < arenaOffset st1)%N) as [Hover|Hin].
    + exists pre, k, v, suf, st, st1, t1, d1, (kvs0 ++ [(k, v)]).
      split_and!; try done. by apply Ht1.
    + destruct (IH (pre ++ [(k, v)]) st1 t1 d1 (kvs0 ++ [(k, v)]))
        as (pre' & k' & v' & suf' & sa & sb & tb & db & kb & Heq & Hrest);
        [|done|by apply Ht1|lia|lia|done|done|].
      { rewrite insert_all_app. unfold bind at 1. rewrite Hpre.
        cbn [insert_all]. by rewrite (bind_Some _ _ _ _ _ Hins). }
      exists pre', k', v', suf', sa, sb, tb, db, kb. split; [|done].
      by rewrite <- Heq, <- app_assoc.
Qed.

(** * The specification's claims *)






(** C2 (allocation exhaustion): what the code does instead. No
    [ArenaExhausted] exists in the code: [allocNode] compares the offset
    with nothing. When the arena has room for [K] nodes at most and more
    pairs are inserted than [K] nodes can hold, one insert of the run
    starts in a state all of whose nodes lie inside the arena and,
    followed statement by statement, returns without any error with a
    node of the tree constructed at an offset [a] such that
    [a + sizeof(Node) > ARENA_SIZE], and with the arena offset beyond
    [ARENA_SIZE]. In C++ the placement new at that offset writes outside
    the block obtained from [aligned_alloc]: undefined behaviour, where
    the claim promises an error that leaves the tree intact. *)
Theorem arena_overrun_unreported (kvs : list (Key * Value)) fuel K :
  length kvs < fuel →
  (sizeofNode ≤ ARENA_SIZE)%N →
  (ARENA_SIZE < sizeofNode * N.of_nat (S K))%N →
  MAX_KEYS * K < length kvs →
  ∃ pre k v suf st st',
    kvs = pre ++ (k, v) :: suf ∧
    run fuel pre = Some st ∧ (arenaOffset st ≤ ARENA_SIZE)%N ∧
    insert fuel k v st = Some (tt, st') ∧
    (ARENA_SIZE < arenaOffset st')%N ∧
    ∃ r n a nd, root st' = Some r ∧ reach (arena st') r n a ∧
                arena st' !! a = Some nd ∧
                (ARENA_SIZE < a + sizeofNode)%N.
Proof.
  intros Hfuel Hsz HK Hn.
  destruct (run_tight fuel kvs)
    as (stf & tf & df & Hrunf & HInvf & Hdf & Hent & _ & _ & _ & Hoff);
    [lia|].
  assert (Hm : S K ≤ length (addrs tf)).
  { pose proof (wf_entries_le df tf (proj1 (proj2 (proj2 HInvf)))) as Hle.
    rewrite (Permutation_length Hent) in Hle. nia. }
  assert (Hover : (ARENA_SIZE < arenaOffset stf)%N).
  { rewrite Hoff.
    assert (sizeofNode * N.of_nat (S K)
            ≤ sizeofNode * N.of_nat (length (addrs tf)))%N
      by (apply N.mul_le_mono_l; lia). lia. }
  destruct new_Inv as (st0 & Hnew & HInv0 & Hoff0).
  unfold run in Hrunf. rewrite Hnew in Hrunf. cbn [mbind option_bind] in Hrunf.
  destruct (insert_all fuel kvs st0) as [[[] stf']|] eqn:Hall; [|done].
  cbn [fmap option_fmap option_map snd] in Hrunf. injection Hrunf as ->.
  destruct (first_overrun fuel ARENA_SIZE st0 stf kvs [] st0
              (Tr 0%N true [] []) 1 [])
    as (pre & k & v & suf & st & st' & t' & d' & kvs' & Heq & Hpre & Hle
        & Hins & Hgt & HInv' & _ & _ & _ & Haddr & Hoff');
    [done|done|rewrite Hoff0; apply new_Tight|lia|lia|done|done|].
  exists pre, k, v, suf, st, st'. split_and!; try done.
  { unfold run. rewrite Hnew. cbn [mbind option_bind]. by rewrite Hpre. }
  pose proof HInv' as (Hroot & _).
  set (m := length (addrs t')) in *.
  assert (1 ≤ m) by (subst m; destruct t'; simpl; lia).
  set (a := (sizeofNode * N.of_nat (m - 1))%N).
  assert (Hlast : (a + sizeofNode = arenaOffset st')%N).
  { rewrite Hoff'. subst a.
    replace (N.of_nat m) with (N.of_nat (m - 1) + 1)%N by lia. lia. }
  assert (Hin : a ∈ addrs t').
  { rewrite Haddr. apply elem_of_fresh. exists (m - 1). split; [lia|].
    subst a. lia. }
  destruct (proj2 (Inv_reach_addrs st' t' d' _ a HInv' Hroot) Hin)
    as [n Hreach].
  destruct (Inv_reach _ _ _ _ _ _ HInv' Hroot Hreach)
    as (s & _ & Hsa & Hrs & _).
  assert (∃ nd, arena st' !! a = Some nd) as [nd Hnd].
  { rewrite <- Hsa. destruct s as [b lf es ts]. inversion Hrs; eauto. }
  exists (taddr t'), n, a, nd. split_and!; [done|done|done|lia].
Qed.


(** C10 (search does not mutate). In every state reached by inserts,
    [search] returns, and whenever [search] returns, from any state, the
    root, the arena offset and every node in the arena are what they were
    before the call. *)
Theorem search_no_mutation (kvs : list (Key * Value)) k fuel :
  length kvs < fuel →
  (∃ st vp, run fuel kvs = Some st ∧ search fuel k st = Some (vp, st)) ∧
  (∀ st0 vp0 st0',
     search fuel k st0 = Some (vp0, st0') →
     root st0' = root st0 ∧ arenaOffset st0' = arenaOffset st0 ∧
     arena st0' = arena st0).
Proof.
  intros Hfuel. split.
  - destruct (run_spec fuel kvs) as (st & t & d & Hrun & HInv & Hd & Hent);
      [lia|].
    destruct (search_spec fuel k st t d HInv) as (r & Hsearch & _); [lia|].
    by exists st, r.
  - intros st0 vp0 st0' Hs. unfold search, bind, get_root in Hs.
    by apply search_loop_pure in Hs as ->.
Qed.

(** * Further properties of the code *)







(** X7 (capacity). With [ORDER ≥ 2], [n] inserts construct at most [n + 1]
    nodes; so when [n + 1] nodes fit into [ARENA_SIZE] bytes, the arena
    offset stays within the arena and every node of the tree lies inside
    the allocated block. *)
Theorem arena_not_overrun (kvs : list (Key * Value)) fuel :
  2 ≤ ORDER → length kvs < fuel →
  (sizeofNode * N.of_nat (S (length kvs)) ≤ ARENA_SIZE)%N →
  ∃ st r,
    run fuel kvs = Some st ∧ root st = Some r ∧
    (arenaOffset st ≤ sizeofNode * N.of_nat (S (length kvs)))%N ∧
    (arenaOffset st ≤ ARENA_SIZE)%N ∧
    ∀ n a, reach (arena st) r n a → (a + sizeofNode ≤ ARENA_SIZE)%N.
Proof.
  intros Hord Hfuel Hcap.
  destruct (run_tight fuel kvs)
    as (st & t & d & Hrun & HInv & Hd & Hent & Hocc & _ & Haddr & Hoff);
    [lia|].
  pose proof HInv as (Hroot & _).
  assert (Hm : length (addrs t) ≤ S (length kvs)).
  { rewrite <- (Permutation_length Hent).
    pose proof (occ_kids_nodes t Hocc). nia. }
  exists st, (taddr t). split_and!; [done|done|nia|nia|].
  intros n a Hreach.
  assert (Hin : a ∈ addrs t).
  { apply (Inv_reach_addrs st t d _ a HInv Hroot). by exists n. }
  rewrite Haddr in Hin. apply elem_of_fresh in Hin as (i & Hi & ->). nia.
Qed.

End Verified.

(** C4 (lower-bound scan). For a node whose occupied keys are sorted,
    [findPos] returns an index [p ≤ keyCount] such that every key before
    [p] is smaller than [k] and, when [p < keyCount], [keys[p] ≥ k]: the
    smallest index whose key is [≥ k], or [keyCount] when there is none. *)
Theorem findPos_lower_bound (nd : Node) (k : Key) :
  keyCount nd ≤ length (keys nd) → nondecreasing (node_keys nd) →
  ∃ p, findPos nd k = Some p ∧ p ≤ keyCount nd ∧
       (∀ j x, j < p → keys nd !! j = Some x → (x < k)%Z) ∧
       (p < keyCount nd → ∃ x, keys nd !! p = Some x ∧ (k ≤ x)%Z).
Proof.
  intros Hlen _. destruct (findPos_spec nd k Hlen) as (p & Hp & Hle & Hlt & Hge).
  exists p. split_and!; [done..|]. intros Hpn.
  destruct (lookup_lt_is_Some_2 (keys nd) p) as [x Hx]; [lia|].
  exists x. split; [done|]. by apply Hge.
Qed.

(** ** The unrolled scan against the plain loop *)

Lemma findPos_tail_fuel ks k n :
  ∀ f f' i, n - i ≤ f → n - i ≤ f' →
            findPos_tail f ks k i n = findPos_tail f' ks k i n.
Proof.
  induction f as [|f IH]; intros [|f'] i Hf Hf'; simpl;
    destruct (decide (i < n)); try lia; try done.
  destruct (rd ks i) as [x|]; simpl; [|done].
  destruct (decide (k ≤ x)%Z); [done|]. apply IH; lia.
Qed.

Lemma findPos_unrolled_tail ks k n :
  ∀ f f' i, n - i ≤ f → n - i ≤ f' →
            findPos_unrolled f ks k i n = findPos_tail f' ks k i n.
Proof.
  induction f as [|f IH]; intros f' i Hf Hf'; cbn [findPos_unrolled].
  - rewrite decide_False by lia. apply findPos_tail_fuel; lia.
  - destruct (decide (i + 4 ≤ n)) as [H4|H4];
      [|apply findPos_tail_fuel; lia].
    destruct f' as [|[|[|[|f']]]]; try lia.
    replace (i + 1) with (S i) by lia.
    replace (i + 2) with (S (S i)) by lia.
    replace (i + 3) with (S (S (S i))) by lia.
    replace (i + 4) with (S (S (S (S i)))) by lia.
    cbn [findPos_tail]. rewrite !decide_True by lia.
    destruct (rd ks i) as [x0|]; simpl; [|done].
    destruct (decide (k ≤ x0)%Z); [done|].
    destruct (rd ks (S i)) as [x1|]; simpl; [|done].
    destruct (decide (k ≤ x1)%Z); [done|].
    destruct (rd ks (S (S i))) as [x2|]; simpl; [|done].
    destruct (decide (k ≤ x2)%Z); [done|].
    destruct (rd ks (S (S (S i)))) as [x3|]; simpl; [|done].
    destruct (decide (k ≤ x3)%Z); [done|].
    apply IH; lia.
Qed.

(** X8 (manual unrolling). The scan of [findPos], four keys per iteration
    followed by the remainder loop, computes what the remainder loop alone
    computes from index 0: the same position, and an access outside the
    key array in the one exactly when in the other. *)
Theorem findPos_unrolled_is_linear (nd : Node) (k : Key) :
  findPos nd k = findPos_tail (keyCount nd) (keys nd) k 0 (keyCount nd).
Proof. unfold findPos. apply findPos_unrolled_tail; lia. Qed.

(** ** A node without room *)

Lemma shift_leaf_Some j k (ks : list Key) (vs : list Value) :
  j < length ks → j < length vs →
  ∃ j' ks' vs', shift_leaf j k ks vs = Some (j', ks', vs') ∧ j' ≤ j ∧
                length ks' = length ks ∧ length vs' = length vs.
Proof.
  revert ks vs. induction j as [|i IH]; intros ks vs Hks Hvs.
  - by exists 0, ks, vs.
  - cbn [shift_leaf].
    destruct (rd_lt ks i) as [x Hx]; [lia|].
    destruct (rd_lt vs i) as [y Hy]; [lia|].
    rewrite Hx; simpl. destruct (decide (k < x)%Z).
    + rewrite wr_Some by done. simpl. rewrite Hy. simpl.
      rewrite wr_Some by done. simpl.
      destruct (IH (<[S i:=x]> ks) (<[S i:=y]> vs))
        as (j' & ks' & vs' & -> & Hj' & Hlk & Hlv);
        rewrite ?length_insert; try lia.
      rewrite length_insert in Hlk. rewrite length_insert in Hlv.
      exists j', ks', vs'. split_and!; [done|lia|done|done].
    + exists (S i), ks, vs. split_and!; [done|lia|done|done].
Qed.

Lemma shift_leaf_bound j k (ks : list Key) (vs : list Value) j' ks' vs' :
  shift_leaf j k ks vs = Some (j', ks', vs') →
  j' ≤ j ∧ length ks' = length ks ∧ (j' < j → j < length ks).
Proof.
  revert ks vs. induction j as [|i IH]; intros ks vs; cbn [shift_leaf].
  - intros [= <- <- <-]. split_and!; [done|done|lia].
  - destruct (rd ks i) as [x|]; simpl; [|done].
    destruct (decide (k < x)%Z).
    + destruct (wr ks (S i) x) as [ks1|] eqn:Hw; simpl; [|done].
      unfold wr in Hw. case_decide; [|done]. injection Hw as <-.
      destruct (rd vs i) as [y|]; simpl; [|done].
      destruct (wr vs (S i) y) as [vs1|]; simpl; [|done].
      intros Heq. apply IH in Heq as (Hle & Hlen & _).
      rewrite length_insert in Hlen. split_and!; [lia|done|done].
    + intros [= <- <- <-]. split_and!; [done|done|lia].
Qed.

(** X9 (a node without room). The leaf branch of [insertNonFull] needs a
    free slot: on a leaf whose [keyCount] equals the size of its key
    array the first write of the call goes to [keys[MAX_KEYS]], outside
    the array. *)
Theorem insertNonFull_full_leaf (st : HFTBTree) a (nd : Node) k v fuel :
  arena st !! a = Some nd → leaf nd = true →
  keyCount nd = length (keys nd) →
  insertNonFull (S fuel) (Some a) k v st = None.
Proof.
  intros Ha Hlf Hfull. cbn [insertNonFull].
  step (load_Some _ _ _ Ha). rewrite Hlf.
  unfold update. step (load_Some _ _ _ Ha).
  assert (insert_leaf k v nd = None) as Hnone; [|by unfold bind, lift; rewrite Hnone].
  unfold insert_leaf.
  destruct (shift_leaf (keyCount nd) k (keys nd) (vals nd))
    as [[[j ks] vs]|] eqn:Hshift; simpl; [|done].
  apply shift_leaf_bound in Hshift as (Hle & Hlen & Hlt).
  assert (wr ks j k = None) as ->; [|done].
  unfold wr. rewrite decide_False; [done|]. lia.
Qed.

(** ** keyCount is a 16-bit field *)

Section Narrow.

(** [MAX_KEYS] does not fit the [uint16_t] field [keyCount]. *)
Hypothesis MAX_KEYS_wide : (65536 ≤ Z.of_nat MAX_KEYS)%Z.

Lemma u16_lt n : (Z.of_nat (u16 n) < 65536)%Z.
Proof.
  unfold u16. rewrite Z2Nat.id; [apply Z.mod_pos_bound; lia|].
  apply Z.mod_pos_bound. lia.
Qed.

Lemma u16_succ n : u16 (u16 n + 1) = u16 (n + 1).
Proof.
  unfold u16. f_equal. rewrite Nat2Z.inj_add, Z2Nat.id
    by (apply Z.mod_pos_bound; lia).
  rewrite Nat2Z.inj_add. by rewrite Z.add_mod_idemp_l.
Qed.

Lemma insert_lone_leaf fuel k v st n :
  lone_leaf st (u16 n) →
  ∃ st', insert (S fuel) k v st = Some (tt, st') ∧ lone_leaf st' (u16 (n + 1)).
Proof.
  intros (Hroot & Hoff & nd & Hnd & Hlf & Hkc & Hlk & Hlv).
  pose proof (u16_lt n) as Hlt.
  destruct (shift_leaf_Some (keyCount nd) k (keys nd) (vals nd))
    as (j & ks & vs & Hshift & Hj & Hlks & Hlvs); [lia..|].
  assert (Hins : insert_leaf k v nd
                 = Some (mkNode (leaf nd) (u16 (keyCount nd + 1))
                                (<[j:=k]> ks) (<[j:=v]> vs) (child nd))).
  { unfold insert_leaf. rewrite Hshift. simpl.
    rewrite !wr_Some by lia. done. }
  unfold insert. erewrite (bind_Some get_root) by reflexivity.
  rewrite Hroot. step (load_Some _ _ _ Hnd).
  unfold full. rewrite bool_decide_eq_false_2 by lia.
  cbn [insertNonFull]. step (load_Some _ _ _ Hnd). rewrite Hlf.
  rewrite (update_Some _ _ _ _ _ Hnd Hins).
  eexists. split; [reflexivity|].
  split_and!; [done|done|]. eexists. cbn [arena].
  split; [apply lookup_insert_eq|]. cbn [leaf keyCount keys vals].
  rewrite !length_insert, Hkc, u16_succ. split_and!; congruence.
Qed.

Lemma run_lone_leaf fuel kvs :
  ∃ st, run (S fuel) kvs = Some st ∧ lone_leaf st (u16 (length kvs)).
Proof.
  unfold run.
  assert (H0 : ∃ st0, HFTBTree_new = Some st0 ∧ lone_leaf st0 (u16 0)).
  { eexists. split; [reflexivity|]. split_and!; [done|simpl; lia|].
    eexists. split; [apply lookup_insert_eq|]. simpl.
    by rewrite !length_replicate. }
  destruct H0 as (st0 & -> & H0). simpl.
  assert (∀ l n st, lone_leaf st (u16 n) →
            ∃ st', insert_all (S fuel) l st = Some (tt, st') ∧
                   lone_leaf st' (u16 (n + length l))) as Hall.
  { intros l. induction l as [|[k v] l IH]; intros n st Hst.
    - exists st. simpl. by rewrite Nat.add_0_r.
    - destruct (insert_lone_leaf fuel k v st n Hst) as (st1 & Hins & Hst1).
      destruct (IH (n + 1) st1 Hst1) as (st2 & Hrun & Hst2).
      exists st2. cbn [insert_all]. step Hins. split; [done|].
      simpl. by replace (n + S (length l)) with (n + 1 + length l) by lia. }
  destruct (Hall kvs 0 st0 H0) as (st & Hrun & Hst).
  exists st. rewrite Hrun. done.
Qed.

(** X10 (16-bit key count). When [MAX_KEYS = 2 * ORDER] exceeds 65535 no
    node ever reports [full()]: whatever is inserted, the tree remains
    the root leaf alone, nothing is allocated, and the leaf's [keyCount]
    is the number of inserts modulo 65536. After 65536 inserts the count
    is 0 again and [search] returns [nullptr] for every key. *)
Theorem keyCount_wraps (kvs : list (Key * Value)) fuel :
  ∃ st nd,
    run (S fuel) kvs = Some st ∧
    root st = Some 0%N ∧ arenaOffset st = sizeofNode ∧
    arena st !! 0%N = Some nd ∧ leaf nd = true ∧
    Z.of_nat (keyCount nd) = (Z.of_nat (length kvs) mod 65536)%Z ∧
    ((Z.of_nat (length kvs) mod 65536 = 0)%Z →
     ∀ k, search (S fuel) k st = Some (None, st)).
Proof.
  destruct (run_lone_leaf fuel kvs)
    as (st & Hrun & Hroot & Hoff & nd & Hnd & Hlf & Hkc & Hlk & Hlv).
  assert (Hcount : Z.of_nat (keyCount nd)
                   = (Z.of_nat (length kvs) mod 65536)%Z).
  { rewrite Hkc. unfold u16. apply Z2Nat.id, Z.mod_pos_bound. lia. }
  exists st, nd. split_and!; try done.
  intros Hzero k. assert (keyCount nd = 0) as H0 by lia.
  unfold search. erewrite (bind_Some get_root) by reflexivity.
  rewrite Hroot. cbn [search_loop]. step (load_Some _ _ _ Hnd).
  unfold findPos. rewrite H0. simpl. rewrite Hlf. done.
Qed.

End Narrow.

End HFTBTree.

(** * Instances

    [HFTBTree<int, int, 2>]: [MAX_KEYS = 4], and a node of 128 bytes. *)

Module Order2.

Definition ORDER : nat := 2.
Definition sizeofNode : N := 128.

Definition new_node : bool → @Node Z := Node_new ORDER 0%Z 0%Z.
Definition alloc : bool → M ptr := allocNode ORDER sizeofNode 0%Z 0%Z.
Definition add : nat → Key → Z → M unit := insert ORDER sizeofNode 0%Z 0%Z.
Definition build : nat → list (Key * Z) → option HFTBTree :=
  run ORDER sizeofNode 0%Z 0%Z.

Definition no_children : list ptr := [None; None; None; None; None].

Definition node135 : @Node Z :=
  mkNode true 3 [1; 3; 5; 0]%Z [10; 30; 50; 0]%Z [None; None; None; None; None].


Definition four : list (Key * Z) := [(1, 10); (2, 20); (3, 30); (4, 40)]%Z.
Definition five : list (Key * Z) := four ++ [(5, 50)]%Z.

(** The pairs [(0, 0), (1, 1), ..., (2097152, 2097152)]: one more than
    the 524288 nodes that fit the arena can hold. *)
Definition many : list (Key * Z) :=
  (λ i, (Z.of_nat i, Z.of_nat i)) <$> seq 0 (Z.to_nat 2097153).

(** The state after inserting [four]: the root is a full leaf. *)
Definition node1234 : @Node Z :=
  mkNode true 4 [1; 2; 3; 4]%Z [10; 20; 30; 40]%Z no_children.

Definition full_state : HFTBTree := mkTree (Some 0%N) 128 {[ 0%N := node1234 ]}.

Lemma order_pos : 0 < ORDER.
Proof. unfold ORDER. lia. Qed.

Lemma max_keys_u16 : (Z.of_nat (MAX_KEYS ORDER) < 65536)%Z.
Proof. reflexivity. Qed.

Lemma node_size_pos : (0 < sizeofNode)%N.
Proof. reflexivity. Qed.

(** C9 (concrete scenario). Inserting keys 1, 2, 3, 4 leaves a single leaf
    root holding [1; 2; 3; 4]. Inserting 5 then splits the root: the new
    root is an internal node holding [3], its two children are leaves
    holding [1; 2] and [4; 5]; [search 5] finds the slot holding the value
    inserted with 5 and [search 3] finds slot 0 of the root, which holds
    the value inserted with 3. *)
Theorem scenario_split_root (v1 v2 v3 v4 v5 : Z) :
  ∃ st4 st5 n4 n5 l r,
    build 3 [(1, v1); (2, v2); (3, v3); (4, v4)]%Z = Some st4 ∧
    root st4 = Some 0%N ∧ arena st4 !! 0%N = Some n4 ∧
    leaf n4 = true ∧ node_keys n4 = [1; 2; 3; 4]%Z ∧
    add 3 5%Z v5 st4 = Some (tt, st5) ∧
    root st5 = Some 128%N ∧ arena st5 !! 128%N = Some n5 ∧
    leaf n5 = false ∧ node_keys n5 = [3]%Z ∧
    take (keyCount n5 + 1) (child n5) = [Some 0%N; Some 256%N] ∧
    arena st5 !! 0%N = Some l ∧ leaf l = true ∧ node_keys l = [1; 2]%Z ∧
    arena st5 !! 256%N = Some r ∧ leaf r = true ∧ node_keys r = [4; 5]%Z ∧
    search 3 5%Z st5 = Some (Some (256%N, 1), st5) ∧
    deref (Some (256%N, 1)) st5 = Some v5 ∧
    search 3 3%Z st5 = Some (Some (128%N, 0), st5) ∧
    deref (Some (128%N, 0)) st5 = Some v3.
Proof.
  pose (n4 := mkNode true 4 [1; 2; 3; 4]%Z [v1; v2; v3; v4] no_children).
  pose (l := mkNode true 2 [1; 2; 3; 4]%Z [v1; v2; v3; v4] no_children).
  pose (r := mkNode true 2 [4; 5; 0; 0]%Z [v4; v5; 0; 0]%Z no_children).
  pose (n5 := mkNode false 1 [3; 0; 0; 0]%Z [v3; 0; 0; 0]%Z
                     [Some 0%N; Some 256%N; None; None; None]).
  exists (mkTree (Some 0%N) 128 (<[0%N:=n4]> ∅)),
         (mkTree (Some 128%N) 384
                 (<[256%N:=r]> (<[128%N:=n5]> (<[0%N:=l]> ∅)))),
         n4, n5, l, r.
  split_and!; vm_compute; reflexivity.
Qed.


(** ** The general theorems at this instance

    Each theorem of the general development applied to concrete inputs,
    its hypotheses discharged by evaluation. *)



Lemma findPos_lower_bound_witness :
  ∃ p, findPos node135 4%Z = Some p ∧ p ≤ keyCount node135 ∧
       (∀ j x, j < p → keys node135 !! j = Some x → (x < 4)%Z) ∧
       (p < keyCount node135 →
        ∃ x, keys node135 !! p = Some x ∧ (4 ≤ x)%Z).
Proof.
  apply (findPos_lower_bound node135 4%Z).
  - simpl. lia.
  - intros [|[|[|i]]] [|[|[|j]]] x y Hij; simpl; intros [= <-] [= <-]; lia.
Defined.




Lemma arena_overrun_unreported_witness :
  ∃ pre k v suf st st',
    many = pre ++ (k, v) :: suf ∧
    build (Z.to_nat 2097154) pre = Some st ∧
    (arenaOffset st ≤ ARENA_SIZE)%N ∧
    add (Z.to_nat 2097154) k v st = Some (tt, st') ∧
    (ARENA_SIZE < arenaOffset st')%N ∧
    ∃ r n a nd, root st' = Some r ∧ reach (arena st') r n a ∧
                arena st' !! a = Some nd ∧
                (ARENA_SIZE < a + sizeofNode)%N.
Proof.
  apply (arena_overrun_unreported ORDER sizeofNode 0%Z 0%Z order_pos
           max_keys_u16 node_size_pos many (Z.to_nat 2097154)
           (Z.to_nat 524288)).
  - unfold many. rewrite length_fmap, length_seq. lia.
  - by vm_compute.
  - change ARENA_SIZE with 67108864%N. unfold sizeofNode. lia.
  - unfold many. rewrite length_fmap, length_seq. unfold MAX_KEYS, ORDER. lia.
Defined.


Lemma search_no_mutation_witness :
  (∃ st vp, build 6 four = Some st ∧ search 6 3%Z st = Some (vp, st)) ∧
  (∀ st0 vp0 st0',
     search 6 3%Z st0 = Some (vp0, st0') →
     root st0' = root st0 ∧ arenaOffset st0' = arenaOffset st0 ∧
     @arena Z st0' = arena st0).
Proof.
  apply (search_no_mutation ORDER sizeofNode 0%Z 0%Z order_pos max_keys_u16
           node_size_pos four 3%Z 6). simpl. lia.
Defined.

(** ** The further properties at this instance *)

(** The traversal, run on the tree of the scenario. *)
Lemma inorder_scenario :
  ∃ st, build 6 [(4, 40); (2, 20); (5, 50); (1, 10); (3, 30)]%Z = Some st ∧
        inorder 2 (arena st) (root st)
        = Some [(1, 10); (2, 20); (3, 30); (4, 40); (5, 50)]%Z.
Proof. eexists. split; vm_compute; reflexivity. Qed.







Lemma arena_not_overrun_witness :
  ∃ st r,
    build 6 five = Some st ∧ root st = Some r ∧
    (arenaOffset st ≤ sizeofNode * N.of_nat (S (length five)))%N ∧
    (arenaOffset st ≤ ARENA_SIZE)%N ∧
    ∀ n a, reach (arena st) r n a → (a + sizeofNode ≤ ARENA_SIZE)%N.
Proof.
  apply (arena_not_overrun ORDER sizeofNode 0%Z 0%Z order_pos max_keys_u16
           node_size_pos five 6).
  - unfold ORDER. lia.
  - simpl. lia.
  - by vm_compute.
Defined.

Lemma insertNonFull_full_leaf_witness :
  build 3 four = Some full_state ∧
  insertNonFull ORDER sizeofNode 0%Z 0%Z 1 (Some 0%N) 9%Z 90%Z full_state
  = None.
Proof.
  split; [vm_compute; reflexivity|].
  apply (insertNonFull_full_leaf ORDER sizeofNode 0%Z 0%Z full_state 0%N
           node1234 9%Z 90%Z 0); reflexivity.
Defined.

End Order2.

(** [HFTBTree<int, int, 32768>]: [MAX_KEYS = 65536], one more than the
    largest [uint16_t]; a node takes 1048640 bytes. *)

Module Order32768.

Definition ORDER : nat := Z.to_nat 32768.
Definition sizeofNode : N := 1048640.

Lemma max_keys_wide : (65536 ≤ Z.of_nat (MAX_KEYS ORDER))%Z.
Proof. unfold MAX_KEYS, ORDER. lia. Qed.

Lemma keyCount_wraps_witness :
  ∃ st nd,
    run ORDER sizeofNode 0%Z 0%Z 1 [(1, 10); (2, 20); (3, 30)]%Z = Some st ∧
    root st = Some 0%N ∧ arenaOffset st = sizeofNode ∧
    arena st !! 0%N = Some nd ∧ leaf nd = true ∧
    Z.of_nat (keyCount nd)
    = (Z.of_nat (length [(1, 10); (2, 20); (3, 30)]%Z) mod 65536)%Z ∧
    ((Z.of_nat (length [(1, 10); (2, 20); (3, 30)]%Z) mod 65536 = 0)%Z →
     ∀ k, search 1 k st = Some (None, st)).
Proof.
  apply (keyCount_wraps ORDER sizeofNode 0%Z 0%Z max_keys_wide
           [(1, 10); (2, 20); (3, 30)]%Z 0).
Defined.

End Order32768.
